(** * mavconn: channel registry and endpoint URL parser

    A shallow embedding of [mavconn_interface.cpp] (namespace [mavconn]):

    - the static channel set [MAVConnInterface::allocated_channels] with
      [new_channel], [delete_channel] and [channes_available];
    - the URL helpers [url_parse_host], [url_parse_query], the four
      [url_parse_*] transport selectors and [MAVConnInterface::open_url].

    Data is modelled as the code has it: [std::set<int>] is a [gset Z],
    [std::string] is a [list ascii], an iterator into a string is the index
    it points at ([end()] is the length), [int] and [uint8_t] are [Z] with
    the narrowing conversion written out, C++ exceptions and the ROS console
    are a small exception-and-log monad. *)

From stdpp Require Import gmap list strings.
From Stdlib Require Import ZArith Ascii Lia.

Local Open Scope string_scope.
Local Open Scope list_scope.
Local Open Scope stdpp_scope.
Local Open Scope Z_scope.

#[local] Set Warnings "-clear-no-such-hyp".

(** A string literal stands for its list of characters. *)
Coercion String.list_ascii_of_string : string >-> list.

(* ================================================================== *)
(** * Channel registry *)
(* ================================================================== *)

Section ChannelRegistry.

(** The macro [MAVLINK_COMM_NUM_BUFFERS] comes from the MAVLink headers
    (16 on hosted platforms, 4 on small targets); it is a parameter here. *)
Variable MAVLINK_COMM_NUM_BUFFERS : Z.

(** The [for] loop of [new_channel].  [iters] is the number of iterations
    left, that is [MAVLINK_COMM_NUM_BUFFERS - chan] when positive: the loop
    test [chan < MAVLINK_COMM_NUM_BUFFERS] holds exactly while it is not
    zero.  The result is the returned [int] and the set afterwards. *)
Fixpoint new_channel_loop (iters : nat) (chan : Z)
    (allocated_channels : gset Z) : Z * gset Z :=
  match iters with
  | O => (-1, allocated_channels)
  | S iters' =>
      if decide (chan ∈ allocated_channels)
      then new_channel_loop iters' (chan + 1) allocated_channels
      else (chan, {[chan]} ∪ allocated_channels)
  end.

(** [int MAVConnInterface::new_channel()] *)
Definition new_channel (allocated_channels : gset Z) : Z * gset Z :=
  new_channel_loop (Z.to_nat MAVLINK_COMM_NUM_BUFFERS) 0 allocated_channels.

(** [void MAVConnInterface::delete_channel(int chan)]:
    [allocated_channels.erase(allocated_channels.find(chan))].  When [chan]
    is absent [find] yields [end()], and erasing [end()] has undefined
    behaviour: the model has no result there. *)
Definition delete_channel (chan : Z) (allocated_channels : gset Z)
    : option (gset Z) :=
  if decide (chan ∈ allocated_channels)
  then Some (allocated_channels ∖ {[chan]})
  else None.

(** Conversions of the arithmetic in [channes_available]: [int - size_t] is
    computed in the 64-bit unsigned [size_t] and the result narrowed to
    [int]. *)
Definition wrap_size_t (z : Z) : Z := z mod 2 ^ 64.
Definition wrap_int (z : Z) : Z := (z + 2 ^ 31) mod 2 ^ 32 - 2 ^ 31.

(** [int MAVConnInterface::channes_available()] *)
Definition channes_available (allocated_channels : gset Z) : Z :=
  wrap_int (wrap_size_t
    (MAVLINK_COMM_NUM_BUFFERS - Z.of_nat (size allocated_channels))).

(** ** Connection construction *)

(** The fields the base class [MAVConnInterface] initialises. *)
Record connection := Connection {
  sys_id : Z;
  comp_id : Z;
  channel : Z
}.

(** Outcome of the constructor: the object, or the failed
    [ROS_ASSERT_MSG], which stops the process. *)
Inductive construction :=
  | Constructed (conn : connection)
  | AssertionFailed (msg : string).

(** [MAVConnInterface::MAVConnInterface(uint8_t system_id, uint8_t component_id)]:
    [channel = new_channel(); ROS_ASSERT_MSG(channel >= 0, ...)]. *)
Definition MAVConnInterface_ctor (system_id component_id : Z)
    (allocated_channels : gset Z) : construction * gset Z :=
  let '(chan, allocated_channels') := new_channel allocated_channels in
  if 0 <=? chan
  then (Constructed (Connection system_id component_id chan),
        allocated_channels')
  else (AssertionFailed "channel allocation failure", allocated_channels').

(** ** Sequences of allocations and releases *)

(** The process state the registry claims are about: the static set and
    the connections alive, newest first. *)
Record registry := Registry {
  allocated : gset Z;
  live : list connection
}.

Definition registry_init : registry := Registry ∅ [].

(** Modelled from the spec: a connection's channel id is allocated when
    the connection is constructed and released at its teardown; the
    transport classes whose teardown calls [delete_channel(channel)] are in
    other files.  [Allocate] runs the constructor; [Release chan] is the
    [delete_channel(chan)] of a teardown, after which the connection that
    held [chan] is no longer alive. *)
Inductive registry_op :=
  | Allocate (system_id component_id : Z)
  | Release (chan : Z).

(** Drops the newest connection that holds [chan]. *)
Fixpoint drop_holder (chan : Z) (conns : list connection) : list connection :=
  match conns with
  | [] => []
  | c :: conns' =>
      if decide (channel c = chan) then conns' else c :: drop_holder chan conns'
  end.

(** One operation; [None] when the process does not continue (failed
    assertion in the constructor, undefined behaviour in [delete_channel]). *)
Definition registry_step (st : registry) (op : registry_op) : option registry :=
  match op with
  | Allocate system_id component_id =>
      match MAVConnInterface_ctor system_id component_id (allocated st) with
      | (Constructed conn, allocated') =>
          Some (Registry allocated' (conn :: live st))
      | (AssertionFailed _, _) => None
      end
  | Release chan =>
      match delete_channel chan (allocated st) with
      | Some allocated' => Some (Registry allocated' (drop_holder chan (live st)))
      | None => None
      end
  end.

Fixpoint registry_run (ops : list registry_op) (st : registry) : option registry :=
  match ops with
  | [] => Some st
  | op :: ops' =>
      match registry_step st op with
      | Some st' => registry_run ops' st'
      | None => None
      end
  end.

(** ** Two callers without mutual exclusion *)

(** [new_channel] takes no lock, so two threads that call it interleave at
    the accesses to the shared set.  A caller is at the loop test with its
    local [chan], between the [count] that found [chan] free and the
    [insert], or has returned. *)
Inductive caller :=
  | AtLoopTest (chan : Z)
  | AtInsert (chan : Z)
  | Returned (result : Z).

(** One step of a caller of [new_channel] on the shared set. *)
Definition caller_step (c : caller) (allocated_channels : gset Z)
    : caller * gset Z :=
  match c with
  | AtLoopTest chan =>
      if chan <? MAVLINK_COMM_NUM_BUFFERS then
        if decide (chan ∈ allocated_channels)
        then (AtLoopTest (chan + 1), allocated_channels)
        else (AtInsert chan, allocated_channels)
      else (Returned (-1), allocated_channels)
  | AtInsert chan => (Returned chan, {[chan]} ∪ allocated_channels)
  | Returned result => (Returned result, allocated_channels)
  end.

Inductive thread := Thread1 | Thread2.

(** Both callers and the set they share. *)
Record racing := Racing {
  caller1 : caller;
  caller2 : caller;
  shared : gset Z
}.

Definition racing_step (st : racing) (t : thread) : racing :=
  match t with
  | Thread1 =>
      let '(c, s) := caller_step (caller1 st) (shared st) in
      Racing c (caller2 st) s
  | Thread2 =>
      let '(c, s) := caller_step (caller2 st) (shared st) in
      Racing (caller1 st) c s
  end.

(** Runs a schedule: the order in which the threads take their steps. *)
Definition racing_run (schedule : list thread) (st : racing) : racing :=
  foldl racing_step st schedule.

(** Both threads enter [new_channel] on the set [allocated_channels]. *)
Definition racing_start (allocated_channels : gset Z) : racing :=
  Racing (AtLoopTest 0) (AtLoopTest 0) allocated_channels.

(** The safety two callers expect: whatever the schedule, when both calls
    have returned a channel, the two channels differ. *)
Definition concurrent_allocation_safe : Prop :=
  ∀ schedule allocated_channels r1 r2 s,
    racing_run schedule (racing_start allocated_channels)
      = Racing (Returned r1) (Returned r2) s →
    0 ≤ r1 → 0 ≤ r2 → r1 ≠ r2.

(** The schedule that lets the first caller take [k1] steps and only then
    the second one [k2] steps: the calls are serialised. *)
Definition serial_schedule (k1 k2 : nat) : list thread :=
  replicate k1 Thread1 ++ replicate k2 Thread2.

(** A caller running alone for [k] steps. *)
Fixpoint caller_run (k : nat) (c : caller) (allocated_channels : gset Z)
    : caller * gset Z :=
  match k with
  | O => (c, allocated_channels)
  | S k' =>
      let '(c', s') := caller_step c allocated_channels in
      caller_run k' c' s'
  end.

(** What holds of the registry between operations: every allocated id is
    a channel id, no two live connections share one, and the allocated ids
    are exactly those of the live connections. *)
Definition registry_inv (st : registry) : Prop :=
  (∀ c, c ∈ allocated st → 0 ≤ c < MAVLINK_COMM_NUM_BUFFERS) ∧
  NoDup (channel <$> live st) ∧
  (∀ c, c ∈ allocated st ↔ c ∈ channel <$> live st).

End ChannelRegistry.

(* ================================================================== *)
(** * Exceptions and the ROS console *)
(* ================================================================== *)

(** What the code throws: [DeviceError(module, description)] of mavconn,
    and the two exceptions of [std::stoi]. *)
Inductive exception :=
  | DeviceError (module what : string)
  | invalid_argument
  | out_of_range.

Inductive severity := DEBUG | WARN | ERROR.

(** A [ROS_<severity>_NAMED("mavconn", format, ...)] call; the formatted
    arguments are not recorded. *)
Record log_entry := Log {
  log_level : severity;
  log_format : string
}.

(** A computation writes to the console and then returns or throws. *)
Definition M (A : Type) : Type := list log_entry * (exception + A).

#[global] Instance M_ret : MRet M := λ A a, ([], inr a).

#[global] Instance M_bind : MBind M := λ A B f m,
  match m with
  | (logs, inl e) => (logs, inl e)
  | (logs, inr a) => let '(logs', r) := f a in (logs ++ logs', r)
  end.

Definition throw {A} (e : exception) : M A := ([], inl e).

Definition ros_log (lvl : severity) (format : string) : M unit :=
  ([Log lvl format], inr tt).

(** How a computation ended. *)
Definition outcome {A} (m : M A) : exception + A := snd m.

(** The spec's [InvalidDescriptor] is the code's [DeviceError("url", ...)]. *)
Definition raises_DeviceError {A} (m : M A) : Prop :=
  ∃ what, outcome m = inl (DeviceError "url" what).

(* ================================================================== *)
(** * Strings, iterators and the standard algorithms used *)
(* ================================================================== *)

(** [std::find(s.begin(), s.end(), c)] as an index: the position of the
    first [c], the length of [s] when there is none. *)
Fixpoint find_index (s : list ascii) (c : ascii) : nat :=
  match s with
  | [] => O
  | x :: s' => if decide (x = c) then O else S (find_index s' c)
  end.

(** [std::find(first, s.end(), c)] for an iterator [first] into [s]. *)
Definition std_find (s : list ascii) (first : nat) (c : ascii) : nat :=
  (first + find_index (drop first s) c)%nat.

(** [needle] is read at the front of [s]. *)
Fixpoint starts_with (needle s : list ascii) : bool :=
  match needle, s with
  | [], _ => true
  | _ :: _, [] => false
  | a :: needle', b :: s' =>
      if decide (a = b) then starts_with needle' s' else false
  end.

(** [std::search(s.begin(), s.end(), needle.begin(), needle.end())] as an
    index: where the first occurrence of [needle] starts, the length of [s]
    when there is none. *)
Fixpoint std_search (s needle : list ascii) : nat :=
  match s with
  | [] => O
  | _ :: s' => if starts_with needle s then O else S (std_search s' needle)
  end.

(** [std::string::assign(first, last)]: the characters in [[first, last)]. *)
Definition assign (s : list ascii) (first last : nat) : list ascii :=
  take (last - first) (drop first s).

(** C [tolower] in the "C" locale: the upper-case letters go to their
    lower-case ones, every other character is left as it is. *)
Definition tolower (c : ascii) : ascii :=
  let n := N_of_ascii c in
  if ((65 <=? n) && (n <=? 90))%N then ascii_of_N (n + 32) else c.

(** C [isspace] and [isdigit] in the "C" locale. *)
Definition isspace (c : ascii) : bool :=
  let n := N_of_ascii c in
  ((n =? 32) || ((9 <=? n) && (n <=? 13)))%N.

Definition isdigit (c : ascii) : bool :=
  let n := N_of_ascii c in
  ((48 <=? n) && (n <=? 57))%N.

Definition digit_value (c : ascii) : Z := Z.of_N (N_of_ascii c) - 48.

Fixpoint skip_spaces (s : list ascii) : list ascii :=
  match s with
  | c :: s' => if isspace c then skip_spaces s' else s
  | [] => []
  end.

(** Value of the longest run of decimal digits at the front of [s],
    continuing the value [acc] read so far. *)
Fixpoint read_digits (acc : Z) (s : list ascii) : Z :=
  match s with
  | c :: s' => if isdigit c then read_digits (10 * acc + digit_value c) s' else acc
  | [] => acc
  end.

Definition INT_MIN : Z := - 2 ^ 31.
Definition INT_MAX : Z := 2 ^ 31 - 1.

(** [std::stoi(str)] of the C++ standard library (base 10, no [idx]): as
    [strtol] it skips leading white space, takes an optional sign and the
    longest run of digits and ignores what follows; it throws
    [std::invalid_argument] when there is no digit to convert and
    [std::out_of_range] when the value does not fit an [int]. *)
Definition stoi (str : list ascii) : M Z :=
  let s := skip_spaces str in
  let '(negative, s) :=
    match s with
    | c :: s' =>
        if decide (c = "-"%char) then (true, s')
        else if decide (c = "+"%char) then (false, s')
        else (false, s)
    | [] => (false, s)
    end in
  match s with
  | c :: _ =>
      if isdigit c then
        let v := read_digits 0 s in
        let v := if negative then - v else v in
        if (v <? INT_MIN) || (INT_MAX <? v) then throw out_of_range
        else mret v
      else throw invalid_argument
  | [] => throw invalid_argument
  end.

(** Conversion of an [int] to [uint8_t]. *)
Definition to_uint8 (z : Z) : Z := z mod 256.

(* ================================================================== *)
(** * URL parsing *)
(* ================================================================== *)

(** [url_parse_host(host, host_out, port_out, def_host, def_port)]; the
    two output references are the returned pair. *)
Definition url_parse_host (host def_host : list ascii) (def_port : Z)
    : M (list ascii * Z) :=
  let sep_it := std_find host 0 ":"%char in
  if decide (sep_it = length host) then
    if decide (host ≠ []) then mret (host, def_port)
    else mret (def_host, def_port)
  else
    let host_out :=
      if decide (sep_it = O) then def_host
      else assign host 0 sep_it in
    let port := assign host (sep_it + 1) (length host) in
    port_out ← stoi port;
    mret (host_out, port_out).

(** [url_parse_query(query, sysid, compid)]; the two in-out references are
    passed in and returned. *)
Definition url_parse_query (query : list ascii) (sysid compid : Z)
    : M (Z * Z) :=
  let ids_end : list ascii := "ids=" in
  if decide (query = []) then mret (sysid, compid)
  else
    let ids_it := std_search query ids_end in
    if decide (ids_it = length query) then
      ros_log WARN "URL: unknown query arguments";;
      mret (sysid, compid)
    else
      let ids_it := (ids_it + length ids_end)%nat in
      let comma_it := std_find query ids_it ","%char in
      if decide (comma_it = length query) then
        ros_log ERROR "URL: no comma in ids= query";;
        mret (sysid, compid)
      else
        let sys := assign query ids_it comma_it in
        let comp := assign query (comma_it + 1) (length query) in
        sysid' ← stoi sys;
        compid' ← stoi comp;
        ros_log DEBUG "URL: found system/component id = [%u, %u]";;
        mret (to_uint8 sysid', to_uint8 compid').

(** The transport object [boost::make_shared] is asked to build: the
    class and its constructor arguments.  The transport classes themselves
    are outside this file. *)
Inductive MAVConn :=
  | MAVConnSerial (system_id component_id : Z)
      (device : list ascii) (baudrate : Z)
  | MAVConnUDP (system_id component_id : Z)
      (bind_host : list ascii) (bind_port : Z)
      (remote_host : list ascii) (remote_port : Z)
  | MAVConnTCPClient (system_id component_id : Z)
      (server_host : list ascii) (server_port : Z)
  | MAVConnTCPServer (system_id component_id : Z)
      (bind_host : list ascii) (bind_port : Z).

Definition url_parse_serial (path query : list ascii)
    (system_id component_id : Z) : M MAVConn :=
  '(file_path, baudrate) ← url_parse_host path "/dev/ttyACM0" 57600;
  '(system_id, component_id) ← url_parse_query query system_id component_id;
  mret (MAVConnSerial system_id component_id file_path baudrate).

Definition url_parse_udp (hosts query : list ascii)
    (system_id component_id : Z) : M MAVConn :=
  let sep_it := std_find hosts 0 "@"%char in
  if decide (sep_it = length hosts) then
    ros_log ERROR "UDP URL should contain @!";;
    throw (DeviceError "url" "UDP separator not found")
  else
    let bind_pair := assign hosts 0 sep_it in
    let remote_pair := assign hosts (sep_it + 1) (length hosts) in
    '(bind_host, bind_port) ← url_parse_host bind_pair "0.0.0.0" 14555;
    '(remote_host, remote_port) ← url_parse_host remote_pair [] 14550;
    '(system_id, component_id) ← url_parse_query query system_id component_id;
    mret (MAVConnUDP system_id component_id
            bind_host bind_port remote_host remote_port).

Definition url_parse_tcp_client (host query : list ascii)
    (system_id component_id : Z) : M MAVConn :=
  '(server_host, server_port) ← url_parse_host host "localhost" 5760;
  '(system_id, component_id) ← url_parse_query query system_id component_id;
  mret (MAVConnTCPClient system_id component_id server_host server_port).

Definition url_parse_tcp_server (host query : list ascii)
    (system_id component_id : Z) : M MAVConn :=
  '(bind_host, bind_port) ← url_parse_host host "0.0.0.0" 5760;
  '(system_id, component_id) ← url_parse_query query system_id component_id;
  mret (MAVConnTCPServer system_id component_id bind_host bind_port).

(** The selection by protocol that ends [open_url]. *)
Definition open_url_select (proto host path query : list ascii)
    (system_id component_id : Z) : M MAVConn :=
  if decide (proto = "udp") then
    url_parse_udp host query system_id component_id
  else if decide (proto = "tcp") then
    url_parse_tcp_client host query system_id component_id
  else if decide (proto = "tcp-l") then
    url_parse_tcp_server host query system_id component_id
  else if decide (proto = "serial") then
    url_parse_serial path query system_id component_id
  else
    throw (DeviceError "url" "Unknown URL type").

(** [MAVConnInterface::open_url(url, system_id, component_id)] *)
Definition open_url (url : list ascii) (system_id component_id : Z)
    : M MAVConn :=
  let proto_end : list ascii := "://" in
  let proto_it := std_search url proto_end in
  if decide (proto_it = length url) then
    ros_log DEBUG "URL: %s: looks like file path";;
    url_parse_serial url [] system_id component_id
  else
    let proto := map tolower (assign url 0 proto_it) in
    let proto_it := (proto_it + length proto_end)%nat in
    let path_it := std_find url proto_it "/"%char in
    let host := map tolower (assign url proto_it path_it) in
    let query_it := std_find url path_it "?"%char in
    let path := assign url path_it query_it in
    let query_it :=
      if decide (query_it ≠ length url) then S query_it else query_it in
    let query := assign url query_it (length url) in
    ros_log DEBUG "URL: %s: proto: %s, host: %s, path: %s, query: %s";;
    open_url_select proto host path query system_id component_id.

(* ================================================================== *)
(** * Vocabulary of the parser properties *)
(* ================================================================== *)

(** [needle] is read in [s] from position [i] on. *)
Definition occurs_at (needle s : list ascii) (i : nat) : Prop :=
  ∃ rest, drop i s = needle ++ rest.

(** Position [i] is where [needle] occurs first in [s]. *)
Definition first_occurrence (needle s : list ascii) (i : nat) : Prop :=
  occurs_at needle s i ∧ ∀ j, (j < i)%nat → ¬ occurs_at needle s j.

(** The number a run of decimal digits denotes. *)
Definition decimal (digits : list ascii) : Z :=
  foldl (λ acc c, 10 * acc + digit_value c) 0 digits.

(** What follows the host part of a URL, [rest], is empty or starts the
    path. *)
Definition path_or_empty (rest : list ascii) : Prop :=
  rest = [] ∨ ∃ r, rest = "/"%char :: r.

(** Path and query that [open_url] takes from what follows the host
    part. *)
Definition path_of (rest : list ascii) : list ascii :=
  take (find_index rest "?"%char) rest.
Definition query_of (rest : list ascii) : list ascii :=
  drop (S (find_index rest "?"%char)) rest.

(** The reading of [host:port] that splits at the rightmost colon: the
    port token is what follows the last colon, the host what precedes
    it. *)
Definition splits_at_rightmost_colon : Prop :=
  ∀ (l r def_host : list ascii) (def_port : Z),
    ":"%char ∉ r →
    url_parse_host (l ++ ":"%char :: r) def_host def_port =
    (port ← stoi r; mret (if decide (l = []) then def_host else l, port)).

(* ================================================================== *)
(** * The default event loop thread *)
(* ================================================================== *)

(** A [boost::thread] that runs: the function it was started on and the
    name given to it. *)
Record boost_thread := BoostThread {
  thread_entry : string;
  thread_name : string
}.

(** The static [default_loop_thd], [None] while it is not-a-thread, and
    the threads this file has started, oldest first. *)
Record loop_state := LoopState {
  default_loop_thd : option boost_thread;
  started_threads : list boost_thread
}.

Definition loop_init : loop_state := LoopState None [].

(** [boost::thread::joinable()]: the handle owns a thread. *)
Definition joinable (t : option boost_thread) : bool :=
  match t with Some _ => true | None => false end.

(** [void MAVConnInterface::start_default_loop()]: returns when
    [default_loop_thd] is joinable; otherwise starts a thread on
    [loop_spinner], names it and swaps it into [default_loop_thd]. *)
Definition start_default_loop (st : loop_state) : loop_state :=
  if joinable (default_loop_thd st) then st
  else
    let t := BoostThread "loop_spinner" "ev_default_loop" in
    LoopState (Some t) (started_threads st ++ [t]).

(* ================================================================== *)
(** * Further vocabulary *)
(* ================================================================== *)

(** The identity pair a transport is built with. *)
Definition conn_ids (conn : MAVConn) : Z * Z :=
  match conn with
  | MAVConnSerial system_id component_id _ _ => (system_id, component_id)
  | MAVConnUDP system_id component_id _ _ _ _ => (system_id, component_id)
  | MAVConnTCPClient system_id component_id _ _ => (system_id, component_id)
  | MAVConnTCPServer system_id component_id _ _ => (system_id, component_id)
  end.

(** The protocols [open_url] knows. *)
Definition known_protocols : list (list ascii) :=
  ["udp" : list ascii; "tcp" : list ascii; "tcp-l" : list ascii;
   "serial" : list ascii].

(* ================================================================== *)
(** * Properties of the channel registry *)
(* ================================================================== *)

Section ChannelRegistryProperties.

Variable MAX : Z.

(** The loop stops at the first free id at or after [chan], or runs out. *)
Lemma new_channel_loop_spec iters chan (s : gset Z) :
  (new_channel_loop iters chan s = (-1, s) ∧
     ∀ c, chan ≤ c < chan + Z.of_nat iters → c ∈ s) ∨
  (∃ r, new_channel_loop iters chan s = (r, ({[r]} ∪ s)) ∧
     chan ≤ r < chan + Z.of_nat iters ∧ (r ∉ s) ∧
     ∀ c, chan ≤ c < r → c ∈ s).
Proof.
  revert chan. induction iters as [|n IH]; intros chan; simpl.
  - left. split; [done | intros c ?; lia].
  - destruct (decide (chan ∈ s)) as [Hin | Hout].
    + destruct (IH (chan + 1)) as [[-> Hall] | (r & -> & Hr & Hfree & Hlow)].
      * left. split; [done |]. intros c Hc.
        destruct (decide (c = chan)) as [-> | ?]; [done | apply Hall; lia].
      * right. exists r. split; [done |]. split; [lia |]. split; [done |].
        intros c Hc.
        destruct (decide (c = chan)) as [-> | ?]; [done | apply Hlow; lia].
    + right. exists chan. split; [done |]. split; [lia |]. split; [done |].
      intros c ?; lia.
Qed.

(** [new_channel] either finds every id taken and returns [-1] leaving the
    set alone, or returns the lowest free id and inserts it. *)
Lemma new_channel_spec (s : gset Z) :
  (new_channel MAX s = (-1, s) ∧ ∀ c, 0 ≤ c < MAX → c ∈ s) ∨
  (∃ r, new_channel MAX s = (r, ({[r]} ∪ s)) ∧
     0 ≤ r < MAX ∧ (r ∉ s) ∧ ∀ c, 0 ≤ c < r → c ∈ s).
Proof.
  unfold new_channel.
  destruct (new_channel_loop_spec (Z.to_nat MAX) 0 s)
    as [[-> Hall] | (r & -> & Hr & Hfree & Hlow)].
  - left. split; [done |]. intros c Hc. apply Hall. lia.
  - right. exists r. split; [done |]. split; [lia |]. done.
Qed.

Lemma delete_channel_Some chan (s s' : gset Z) :
  delete_channel chan s = Some s' ↔ chan ∈ s ∧ s' = s ∖ {[chan]}.
Proof.
  unfold delete_channel. destruct (decide (chan ∈ s)); naive_solver.
Qed.

(** C1. Whenever some id of [0, MAX) is free, [new_channel] returns the
    smallest free id and inserts it into the allocated set; in particular
    this is so right after a [delete_channel], where the id returned is at
    most the one just released. *)
Theorem new_channel_lowest_free (s : gset Z) :
  ((∃ c, 0 ≤ c < MAX ∧ c ∉ s) →
   ∃ chan, new_channel MAX s = (chan, ({[chan]} ∪ s)) ∧
     0 ≤ chan < MAX ∧ (chan ∉ s) ∧ ∀ c, 0 ≤ c < chan → c ∈ s) ∧
  (∀ released s', 0 ≤ released < MAX →
   delete_channel released s = Some s' →
   ∃ chan, new_channel MAX s' = (chan, ({[chan]} ∪ s')) ∧
     0 ≤ chan ≤ released ∧ (chan ∉ s') ∧ ∀ c, 0 ≤ c < chan → c ∈ s').
Proof.
  split.
  - intros (c & Hc & Hfree).
    destruct (new_channel_spec s) as [[_ Hall] | (r & Hr)].
    + destruct Hfree. by apply Hall.
    + by exists r.
  - intros released s' Hrange [Hin ->]%delete_channel_Some.
    destruct (new_channel_spec (s ∖ {[released]}))
      as [[_ Hall] | (r & Heq & Hr & Hfree & Hlow)].
    + specialize (Hall released Hrange). set_solver.
    + exists r. split; [done |]. split; [| done].
      split; [lia |].
      destruct (decide (r ≤ released)) as [? | Hgt]; [done |].
      assert (released ∈ s ∖ {[released]}) by (apply Hlow; lia).
      set_solver.
Qed.

(** C2. When every id of [0, MAX) is allocated, [new_channel] reports the
    failure (it returns [-1]) and leaves the allocated set as it was; the
    constructor that called it then fails its assertion. *)
Theorem new_channel_exhausted (s : gset Z) :
  (∀ c, 0 ≤ c < MAX → c ∈ s) →
  new_channel MAX s = (-1, s) ∧
  ∀ system_id component_id,
    MAVConnInterface_ctor MAX system_id component_id s
      = (AssertionFailed "channel allocation failure", s).
Proof.
  intros Hfull.
  assert (Hnew : new_channel MAX s = (-1, s)).
  { destruct (new_channel_spec s) as [[Heq _] | (r & _ & Hr & Hfree & _)];
      [done |].
    destruct Hfree. by apply Hfull. }
  split; [done |]. intros system_id component_id.
  unfold MAVConnInterface_ctor. by rewrite Hnew.
Qed.

(** ** Sequences of operations *)

Lemma drop_holder_channels chan conns :
  NoDup (channel <$> conns) →
  NoDup (channel <$> drop_holder chan conns) ∧
  ∀ c, c ∈ channel <$> drop_holder chan conns ↔
       c ∈ channel <$> conns ∧ c ≠ chan.
Proof.
  induction conns as [|conn conns IH]; simpl; intros Hnd.
  - split; [constructor |]. intros c. set_solver.
  - apply NoDup_cons in Hnd as [Hfresh Hnd].
    destruct (decide (channel conn = chan)) as [<- | Hne].
    + split; [done |]. intros c. set_solver.
    + destruct (IH Hnd) as [IHnd IHin]. split.
      * rewrite fmap_cons. apply NoDup_cons. split; [| done].
        rewrite IHin. tauto.
      * intros c. rewrite !fmap_cons, !elem_of_cons, IHin. naive_solver.
Qed.

Lemma registry_init_inv : registry_inv MAX registry_init.
Proof.
  split; [| split]; simpl.
  - intros c Hc. set_solver.
  - constructor.
  - intros c. set_solver.
Qed.

Lemma registry_step_inv st op st' :
  registry_inv MAX st → registry_step MAX st op = Some st' →
  registry_inv MAX st'.
Proof.
  intros (Hrange & Hnd & Hlive) Hstep. destruct op as [sid cid | chan];
    simpl in Hstep.
  - unfold MAVConnInterface_ctor in Hstep.
    destruct (new_channel_spec (allocated st))
      as [[Heq _] | (r & Heq & Hr & Hfree & _)]; rewrite Heq in Hstep.
    + discriminate.
    + destruct (0 <=? r) eqn:Hnonneg; [| discriminate].
      injection Hstep as <-. split; [| split]; simpl.
      * intros c [->%elem_of_singleton | Hc]%elem_of_union; [lia | auto].
      * apply NoDup_cons. split; [| done]. by rewrite <- Hlive.
      * intros c. rewrite elem_of_union, elem_of_singleton, elem_of_cons.
        by rewrite Hlive.
  - destruct (delete_channel chan (allocated st)) as [s' |] eqn:Hdel;
      [| discriminate].
    injection Hstep as <-.
    apply delete_channel_Some in Hdel as [Hin ->].
    destruct (drop_holder_channels chan (live st) Hnd) as [Hnd' Hin'].
    split; [| split]; simpl.
    + intros c Hc. apply Hrange. set_solver.
    + done.
    + intros c. rewrite Hin', elem_of_difference, elem_of_singleton.
      by rewrite Hlive.
Qed.

Lemma registry_run_inv ops st st' :
  registry_inv MAX st → registry_run MAX ops st = Some st' →
  registry_inv MAX st'.
Proof.
  revert st. induction ops as [|op ops IH]; simpl; intros st Hinv Hrun.
  - by injection Hrun as <-.
  - destruct (registry_step MAX st op) as [st1 |] eqn:Hstep; [| discriminate].
    eauto using registry_step_inv.
Qed.

(** C3. After any sequence of allocations and releases, [new_channel]
    never returns an id that is in the allocated set when it is called,
    every live connection holds an allocated id, and two distinct live
    connections hold distinct channel ids. *)
Theorem live_channels_distinct ops st :
  registry_run MAX ops registry_init = Some st →
  (∀ chan s', new_channel MAX (allocated st) = (chan, s') →
     chan ∉ allocated st) ∧
  (∀ conn, conn ∈ live st → channel conn ∈ allocated st) ∧
  (∀ i j conn_i conn_j,
     live st !! i = Some conn_i → live st !! j = Some conn_j →
     i ≠ j → channel conn_i ≠ channel conn_j).
Proof.
  intros Hrun.
  destruct (registry_run_inv ops _ _ registry_init_inv Hrun)
    as (Hrange & Hnd & Hlive).
  split; [| split].
  - intros chan s' Hnew.
    destruct (new_channel_spec (allocated st))
      as [[Heq _] | (r & Heq & _ & Hfree & _)];
      rewrite Heq in Hnew; injection Hnew as <- <-; [| done].
    intros Hin. apply Hrange in Hin. lia.
  - intros conn Hconn. apply Hlive. by apply list_elem_of_fmap_2.
  - intros i j ci cj Hi Hj Hij Heq. apply Hij.
    apply (NoDup_lookup _ i j (channel ci) Hnd).
    + by rewrite list_lookup_fmap, Hi.
    + by rewrite list_lookup_fmap, Hj, Heq.
Qed.

(** ** Filling the pool *)

Lemma registry_run_app ops1 ops2 st :
  registry_run MAX (ops1 ++ ops2) st =
  registry_run MAX ops1 st ≫= registry_run MAX ops2.
Proof.
  revert st. induction ops1 as [|op ops1 IH]; intros st; simpl; [done |].
  by destruct (registry_step MAX st op).
Qed.

(** On the set of the first [n] ids, with [n] below [MAX], [new_channel]
    hands out id [n]. *)
Lemma new_channel_next (n : nat) :
  Z.of_nat n < MAX →
  new_channel MAX (list_to_set (seqZ 0 (Z.of_nat n)))
  = (Z.of_nat n, list_to_set (seqZ 0 (Z.of_nat (S n)))).
Proof.
  intros Hn. set (s := list_to_set (seqZ 0 (Z.of_nat n)) : gset Z).
  assert (Hs : ∀ c, c ∈ s ↔ 0 ≤ c < Z.of_nat n).
  { intros c. unfold s. rewrite elem_of_list_to_set, elem_of_seqZ. lia. }
  destruct (new_channel_spec s) as [[_ Hall] | (r & -> & Hr & Hfree & Hlow)].
  - specialize (Hall (Z.of_nat n)). rewrite Hs in Hall. lia.
  - assert (r = Z.of_nat n) as ->.
    { rewrite Hs in Hfree.
      destruct (decide (Z.of_nat n < r)) as [Hlt | ?]; [| lia].
      specialize (Hlow (Z.of_nat n)). rewrite Hs in Hlow. lia. }
    f_equal. apply set_eq. intros c.
    rewrite elem_of_union, elem_of_singleton, Hs.
    rewrite elem_of_list_to_set, elem_of_seqZ. lia.
Qed.

(** From the empty registry, [n] constructions in a row succeed as long
    as [n] does not exceed [MAX], and take the ids below [n]; one
    construction more than [MAX] fails its assertion. *)
Lemma allocations_fill_registry (n : nat) system_id component_id :
  Z.of_nat n ≤ MAX →
  ∃ conns,
    registry_run MAX (replicate n (Allocate system_id component_id))
      registry_init
    = Some (Registry (list_to_set (seqZ 0 (Z.of_nat n))) conns).
Proof.
  induction n as [|n IH]; intros Hn.
  - by exists [].
  - destruct IH as [conns Hrun]; [lia |].
    rewrite replicate_S_end, registry_run_app, Hrun. simpl.
    unfold MAVConnInterface_ctor. rewrite new_channel_next by lia.
    destruct (0 <=? Z.of_nat n) eqn:Hnonneg; [| lia].
    by eexists.
Qed.

Lemma allocation_beyond_MAX_fails system_id component_id :
  0 ≤ MAX →
  registry_run MAX
    (replicate (S (Z.to_nat MAX)) (Allocate system_id component_id))
    registry_init
  = None.
Proof.
  intros HMAX.
  destruct (allocations_fill_registry (Z.to_nat MAX) system_id component_id)
    as [conns Hrun]; [lia |].
  rewrite replicate_S_end, registry_run_app, Hrun. simpl.
  unfold MAVConnInterface_ctor.
  destruct (new_channel_spec (list_to_set (seqZ 0 (Z.of_nat (Z.to_nat MAX)))))
    as [[-> _] | (r & _ & Hr & Hfree & _)]; [done |].
  destruct Hfree. rewrite elem_of_list_to_set, elem_of_seqZ. lia.
Qed.

(** ** Counting the free channels *)

(** While the allocated ids number at most [MAX] and [MAX] fits an
    [int], the conversions in [channes_available] lose nothing. *)
Lemma channes_available_count (s : gset Z) :
  Z.of_nat (size s) ≤ MAX → MAX ≤ INT_MAX →
  channes_available MAX s = MAX - Z.of_nat (size s).
Proof.
  intros Hsize Hmax. unfold channes_available, wrap_size_t, wrap_int.
  unfold INT_MAX in Hmax.
  rewrite (Z.mod_small (MAX - Z.of_nat (size s))) by lia.
  rewrite Z.mod_small by lia. lia.
Qed.

(** ** Callers without mutual exclusion *)

Lemma caller_run_returned k r (s : gset Z) :
  caller_run MAX k (Returned r) s = (Returned r, s).
Proof. induction k as [|k IH]; simpl; [done | exact IH]. Qed.

Lemma caller_run_add k1 k2 c (s : gset Z) :
  caller_run MAX (k1 + k2) c s =
  caller_run MAX k2 (caller_run MAX k1 c s).1 (caller_run MAX k1 c s).2.
Proof.
  revert c s. induction k1 as [|k1 IH]; intros c s; simpl; [done |].
  destruct (caller_step MAX c s) as [c' s']. apply IH.
Qed.

(** A caller left alone returns what [new_channel] computes, within two
    steps more than the loop has iterations. *)
Lemma caller_run_completes iters chan (s : gset Z) k :
  iters = Z.to_nat (MAX - chan) → (iters + 2 ≤ k)%nat →
  caller_run MAX k (AtLoopTest chan) s =
  (Returned (new_channel_loop iters chan s).1, (new_channel_loop iters chan s).2).
Proof.
  revert chan k. induction iters as [|n IH]; intros chan k Hn Hk.
  - destruct k as [|k]; [lia |]. simpl.
    destruct (chan <? MAX) eqn:Hlt; [lia |]. apply caller_run_returned.
  - destruct k as [|k]; [lia |]. simpl.
    destruct (chan <? MAX) eqn:Hlt; [| lia].
    destruct (decide (chan ∈ s)) as [Hin | Hout].
    + apply IH; lia.
    + destruct k as [|k]; [lia |]. simpl. apply caller_run_returned.
Qed.

Lemma caller_run_result k (s : gset Z) r s' :
  caller_run MAX k (AtLoopTest 0) s = (Returned r, s') →
  new_channel MAX s = (r, s').
Proof.
  intros Hrun. unfold new_channel.
  pose proof (caller_run_add k (Z.to_nat MAX + 2) (AtLoopTest 0) s) as Hadd.
  rewrite Hrun in Hadd. simpl in Hadd.
  rewrite caller_run_returned in Hadd.
  rewrite (caller_run_completes (Z.to_nat MAX) 0 s) in Hadd;
    [| f_equal; lia | lia].
  injection Hadd as <- <-. by destruct (new_channel_loop _ _ _).
Qed.

Lemma racing_run_thread1 k st :
  racing_run MAX (replicate k Thread1) st =
  Racing (caller_run MAX k (caller1 st) (shared st)).1 (caller2 st)
         (caller_run MAX k (caller1 st) (shared st)).2.
Proof.
  revert st. induction k as [|k IH]; intros [c1 c2 s]; [done |].
  change (racing_run MAX (replicate (S k) Thread1) (Racing c1 c2 s))
    with (racing_run MAX (replicate k Thread1)
            (racing_step MAX (Racing c1 c2 s) Thread1)).
  simpl. destruct (caller_step MAX c1 s) as [c1' s1]. by rewrite IH.
Qed.

Lemma racing_run_thread2 k st :
  racing_run MAX (replicate k Thread2) st =
  Racing (caller1 st) (caller_run MAX k (caller2 st) (shared st)).1
         (caller_run MAX k (caller2 st) (shared st)).2.
Proof.
  revert st. induction k as [|k IH]; intros [c1 c2 s]; [done |].
  change (racing_run MAX (replicate (S k) Thread2) (Racing c1 c2 s))
    with (racing_run MAX (replicate k Thread2)
            (racing_step MAX (Racing c1 c2 s) Thread2)).
  simpl. destruct (caller_step MAX c2 s) as [c2' s2]. by rewrite IH.
Qed.

Lemma racing_run_app sched1 sched2 st :
  racing_run MAX (sched1 ++ sched2) st =
  racing_run MAX sched2 (racing_run MAX sched1 st).
Proof. apply foldl_app. Qed.

Lemma racing_run_serial k1 k2 (s : gset Z) :
  racing_run MAX (serial_schedule k1 k2) (racing_start s) =
  let r1 := caller_run MAX k1 (AtLoopTest 0) s in
  let r2 := caller_run MAX k2 (AtLoopTest 0) r1.2 in
  Racing r1.1 r2.1 r2.2.
Proof.
  unfold serial_schedule.
  by rewrite racing_run_app, racing_run_thread1, racing_run_thread2.
Qed.

(** C4, as the code has it.  [new_channel] takes no lock; it keeps the
    registry's discipline when the calls are serialised: if the second
    caller starts only after the first has returned, both calls complete,
    they return what two successive [new_channel] calls return, and two
    channels handed out this way differ. *)
Theorem serialised_allocation_safe (s : gset Z) :
  let '(chan1, s1) := new_channel MAX s in
  let '(chan2, s2) := new_channel MAX s1 in
  (∃ k1 k2,
     racing_run MAX (serial_schedule k1 k2) (racing_start s)
       = Racing (Returned chan1) (Returned chan2) s2) ∧
  (∀ k1 k2 r1 r2 s',
     racing_run MAX (serial_schedule k1 k2) (racing_start s)
       = Racing (Returned r1) (Returned r2) s' →
     r1 = chan1 ∧ r2 = chan2 ∧ s' = s2 ∧ (0 ≤ r1 → 0 ≤ r2 → r1 ≠ r2)).
Proof.
  destruct (new_channel MAX s) as [chan1 s1] eqn:Hfirst.
  destruct (new_channel MAX s1) as [chan2 s2] eqn:Hsecond.
  split.
  - exists (Z.to_nat MAX + 2)%nat, (Z.to_nat MAX + 2)%nat.
    rewrite racing_run_serial. simpl.
    rewrite (caller_run_completes (Z.to_nat MAX) 0 s); [| f_equal; lia | lia].
    unfold new_channel in Hfirst. rewrite Hfirst. simpl.
    rewrite (caller_run_completes (Z.to_nat MAX) 0 s1); [| f_equal; lia | lia].
    unfold new_channel in Hsecond. by rewrite Hsecond.
  - intros k1 k2 r1 r2 s' Hrun. rewrite racing_run_serial in Hrun.
    simpl in Hrun.
    destruct (caller_run MAX k1 (AtLoopTest 0) s) as [c1 t1] eqn:Hrun1.
    simpl in Hrun.
    destruct (caller_run MAX k2 (AtLoopTest 0) t1) as [c2 t2] eqn:Hrun2.
    simpl in Hrun. injection Hrun as -> -> ->.
    apply caller_run_result in Hrun1. apply caller_run_result in Hrun2.
    rewrite Hfirst in Hrun1. injection Hrun1 as <- <-.
    rewrite Hsecond in Hrun2. injection Hrun2 as <- <-.
    split; [done |]. split; [done |]. split; [done |].
    intros Hr1 Hr2 <-.
    destruct (new_channel_spec s) as [[Heq _] | (r & Heq & _)];
      rewrite Heq in Hfirst; injection Hfirst as <- <-; [lia |].
    destruct (new_channel_spec ({[r]} ∪ s))
      as [[Heq' _] | (r' & Heq' & _ & Hfree & _)];
      rewrite Heq' in Hsecond; injection Hsecond as Hr <-; [lia |].
    subst r'. set_solver.
Qed.

End ChannelRegistryProperties.

(** C1 at [MAX = 16] with ids 0, 1 and 3 taken: id 2 is handed out, and
    it is again after 1 has been released and 1, 2 re-taken. *)
Lemma new_channel_lowest_free_witness :
  new_channel 16 {[0; 1; 3]} = (2, {[2; 0; 1; 3]}) ∧
  ∃ chan, new_channel 16 {[0; 3]} = (chan, ({[chan]} ∪ {[0; 3]})) ∧
    0 ≤ chan ≤ 1.
Proof.
  split.
  - destruct (proj1 (new_channel_lowest_free 16 {[0; 1; 3]}))
      as (chan & Heq & _).
    + exists 2. split; [lia | vm_compute; set_solver].
    + vm_compute. reflexivity.
  - destruct (proj2 (new_channel_lowest_free 16 {[0; 1; 3]}) 1 {[0; 3]})
      as (chan & Heq & Hle & _).
    + lia.
    + vm_compute. reflexivity.
    + exists chan. split; [exact Heq | exact Hle].
Defined.


(** C2 at [MAX = 2] with both ids taken. *)
Lemma new_channel_exhausted_witness :
  new_channel 2 {[0; 1]} = (-1, {[0; 1]}).
Proof.
  apply (new_channel_exhausted 2 {[0; 1]}).
  intros c Hc. assert (c = 0 ∨ c = 1) as [-> | ->] by lia; set_solver.
Defined.

(** C3 on a run that allocates twice, releases channel 0 and allocates
    again: the two live connections hold channels 0 and 1. *)
Lemma live_channels_distinct_witness :
  registry_run 16
    [Allocate 1 240; Allocate 1 240; Release 0; Allocate 1 240] registry_init
  = Some (Registry {[0; 1]} [Connection 1 240 0; Connection 1 240 1]) ∧
  channel (Connection 1 240 0) ≠ channel (Connection 1 240 1).
Proof.
  assert (Hrun : registry_run 16
            [Allocate 1 240; Allocate 1 240; Release 0; Allocate 1 240]
            registry_init
          = Some (Registry {[0; 1]} [Connection 1 240 0; Connection 1 240 1]))
    by (vm_compute; reflexivity).
  split; [exact Hrun |].
  destruct (live_channels_distinct 16 _ _ Hrun) as (_ & _ & Hdistinct).
  apply (Hdistinct 0%nat 1%nat); [reflexivity | reflexivity | lia].
Defined.

(** C4, the claim as stated fails: when the two callers alternate, both
    find channel 0 free before either has inserted it, and both return 0. *)
Lemma concurrent_allocation_unsafe : ¬ concurrent_allocation_safe 16.
Proof.
  intros Hsafe.
  apply (Hsafe [Thread1; Thread2; Thread1; Thread2] ∅ 0 0 {[0]});
    [vm_compute; reflexivity | lia | lia | reflexivity].
Qed.

(** C4 as amended, from the empty registry with [MAX = 16]: when the
    second caller starts after the first has taken 18 steps, the callers
    get channels 0 and 1. *)
Lemma serialised_allocation_safe_witness :
  racing_run 16 (serial_schedule 18 18) (racing_start ∅)
  = Racing (Returned 0) (Returned 1) {[1; 0]} ∧
  (0 ≤ 0 → 0 ≤ 1 → (0 : Z) ≠ 1).
Proof.
  assert (Hrun : racing_run 16 (serial_schedule 18 18) (racing_start ∅)
                 = Racing (Returned 0) (Returned 1) {[1; 0]})
    by (vm_compute; reflexivity).
  split; [exact Hrun |].
  exact (proj2 (proj2 (proj2
    (proj2 (serialised_allocation_safe 16 ∅) 18%nat 18%nat 0 1 {[1; 0]} Hrun)))).
Defined.

(* ================================================================== *)
(** * Properties of the string algorithms *)
(* ================================================================== *)

Lemma find_index_le s c : (find_index s c ≤ length s)%nat.
Proof.
  induction s as [|x s IH]; simpl; [lia |].
  destruct (decide (x = c)); lia.
Qed.

Lemma find_index_absent s c : c ∉ s → find_index s c = length s.
Proof.
  induction s as [|x s IH]; simpl; intros Hc; [done |].
  apply not_elem_of_cons in Hc as [Hne Hc].
  destruct (decide (x = c)); [congruence | by rewrite IH].
Qed.

Lemma find_index_app l r c : c ∉ l → find_index (l ++ c :: r) c = length l.
Proof.
  induction l as [|x l IH]; simpl; intros Hc.
  - by destruct (decide (c = c)).
  - apply not_elem_of_cons in Hc as [Hne Hc].
    destruct (decide (x = c)); [congruence | by rewrite IH].
Qed.

Lemma find_index_app_absent l r c :
  c ∉ l → find_index (l ++ r) c = (length l + find_index r c)%nat.
Proof.
  induction l as [|x l IH]; simpl; intros Hc; [done |].
  apply not_elem_of_cons in Hc as [Hne Hc].
  destruct (decide (x = c)); [congruence | by rewrite IH].
Qed.

Lemma std_find_0 s c : std_find s 0 c = find_index s c.
Proof. done. Qed.

Lemma assign_prefix l r : assign (l ++ r) 0 (length l) = l.
Proof.
  unfold assign. rewrite drop_0, Nat.sub_0_r. by rewrite take_app_length.
Qed.

Lemma assign_suffix l r : assign (l ++ r) (length l) (length (l ++ r)) = r.
Proof.
  unfold assign. rewrite drop_app_length, length_app.
  apply take_ge. lia.
Qed.

Lemma assign_to_end s i : assign s i (length s) = drop i s.
Proof. unfold assign. apply take_ge. rewrite length_drop. lia. Qed.

Lemma starts_with_spec needle s :
  starts_with needle s = true ↔ ∃ rest, s = needle ++ rest.
Proof.
  revert s. induction needle as [|a needle IH]; intros s; simpl.
  - split; [by exists s | done].
  - destruct s as [|b s].
    + split; [done | intros [rest Hrest]; discriminate].
    + destruct (decide (a = b)) as [<- | Hne].
      * rewrite IH. split; intros [rest Hrest]; exists rest; congruence.
      * split; [done | intros [rest Hrest]; congruence].
Qed.

(** [std_search] returns the position of the first occurrence. *)
Lemma std_search_first needle s i :
  needle ≠ [] → first_occurrence needle s i →
  std_search s needle = i ∧ (i < length s)%nat.
Proof.
  intros Hneedle. revert i.
  induction s as [|x s IH]; intros i [[rest Hocc] Hfirst].
  - rewrite drop_nil in Hocc. destruct needle; [done | discriminate].
  - simpl std_search. destruct (starts_with needle (x :: s)) eqn:Hstart.
    + destruct i as [|i]; [simpl; lia |].
      destruct (Hfirst O); [lia |].
      apply starts_with_spec in Hstart as [rest' ->]. by exists rest'.
    + destruct i as [|i].
      * rewrite drop_0 in Hocc.
        assert (starts_with needle (x :: s) = true) as Hyes
          by (apply starts_with_spec; eauto).
        congruence.
      * destruct (IH i) as [-> Hlt]; [| simpl; lia].
        split; [by exists rest |].
        intros j Hj. apply (Hfirst (S j)). lia.
Qed.

(** Conversely, where [std_search] stops short of the end, the needle
    occurs, and nowhere before. *)
Lemma std_search_is_first needle s :
  (std_search s needle < length s)%nat →
  first_occurrence needle s (std_search s needle).
Proof.
  induction s as [|x s IH]; simpl length; intros Hlt; [simpl in Hlt; lia |].
  simpl std_search in *. destruct (starts_with needle (x :: s)) eqn:Hstart.
  - split; [| intros j Hj; lia].
    apply starts_with_spec in Hstart as [rest ->]. by exists rest.
  - destruct IH as [[rest Hocc] Hfirst]; [lia |]. split.
    + by exists rest.
    + intros [|j] Hj [rest' Hocc'].
      * rewrite drop_0 in Hocc'.
        assert (starts_with needle (x :: s) = true) as Hyes
          by (apply starts_with_spec; eauto).
        congruence.
      * apply (Hfirst j); [lia |]. by exists rest'.
Qed.

(** Before the first [c] of a string no needle that begins with [c] can
    occur. *)
Lemma first_occurrence_after_prefix c needle pre rest :
  c ∉ pre →
  first_occurrence (c :: needle) (pre ++ (c :: needle) ++ rest) (length pre).
Proof.
  intros Hc. split.
  - exists rest. by rewrite drop_app_length.
  - intros j Hj [rest' Hocc].
    apply Hc. apply list_elem_of_lookup. exists j.
    assert (Hj' : (pre ++ (c :: needle) ++ rest) !! j = Some c).
    { rewrite <- (Nat.add_0_r j), <- lookup_drop, Hocc. done. }
    by rewrite lookup_app_l in Hj' by done.
Qed.

(** [tolower] maps no other character to [@]. *)
Lemma tolower_inv_at c : tolower c = "@"%char → c = "@"%char.
Proof.
  destruct c as [[] [] [] [] [] [] [] []]; vm_compute; intros H;
    first [reflexivity | discriminate H].
Qed.

Lemma map_tolower_absent x s :
  (∀ c, tolower c = x → c = x) → x ∉ s → x ∉ map tolower s.
Proof.
  intros Hinv. induction s as [|c s IH]; simpl; intros Hx; [done |].
  apply not_elem_of_cons in Hx as [Hne Hx].
  apply not_elem_of_cons. split; [| by apply IH].
  intros Heq. apply Hne. symmetry. by apply Hinv.
Qed.

Lemma map_tolower_present x s :
  tolower x = x → x ∈ s → x ∈ map tolower s.
Proof.
  intros Hx. induction s as [|c s IH]; simpl; intros Hin;
    [by apply elem_of_nil in Hin |].
  apply elem_of_cons in Hin as [<- | Hin]; rewrite elem_of_cons.
  - by left.
  - right. by apply IH.
Qed.

Lemma map_tolower_app l r :
  map tolower (l ++ r) = map tolower l ++ map tolower r.
Proof. apply map_app. Qed.

(* ================================================================== *)
(** * Properties of the monad *)
(* ================================================================== *)

Lemma bind_ret {A B} (a : A) (f : A → M B) : (mret a ≫= f) = f a.
Proof. unfold mbind, M_bind, mret, M_ret. by destruct (f a). Qed.

(* ================================================================== *)
(** * Properties of the URL parser *)
(* ================================================================== *)

(** A token without colon is the host, or stands for the default host
    when empty; the default port applies. *)
Lemma url_parse_host_no_colon host def_host def_port :
  ":"%char ∉ host →
  url_parse_host host def_host def_port =
  mret (if decide (host = []) then def_host else host, def_port).
Proof.
  intros Hc. unfold url_parse_host.
  rewrite std_find_0, find_index_absent by done.
  destruct (decide (length host = length host)); [| done].
  destruct host; simpl; done.
Qed.

(** A token with a colon is split at its first colon. *)
Lemma url_parse_host_first_colon l r def_host def_port :
  ":"%char ∉ l →
  url_parse_host (l ++ ":"%char :: r) def_host def_port =
  (port ← stoi r; mret (if decide (l = []) then def_host else l, port)).
Proof.
  intros Hc. unfold url_parse_host.
  rewrite std_find_0, find_index_app by done.
  destruct (decide (length l = length (l ++ ":"%char :: r))) as [Heq | _].
  { rewrite length_app in Heq. simpl in Heq. lia. }
  rewrite assign_prefix.
  replace (l ++ ":"%char :: r) with ((l ++ [":"%char]) ++ r)
    by (by rewrite <- app_assoc).
  replace (length l + 1)%nat with (length (l ++ [":"%char]))
    by (rewrite length_app; simpl; lia).
  rewrite assign_suffix.
  destruct l as [|c l]; simpl; [done |].
  by destruct (decide (c :: l = [])).
Qed.

(** The text after the first [ids=] up to the next comma is converted to
    the system id, the text after that comma to the component id. *)
Lemma url_parse_query_ids query i sys comp sysid compid :
  first_occurrence "ids=" query i →
  drop (i + 4) query = sys ++ ","%char :: comp →
  ","%char ∉ sys →
  url_parse_query query sysid compid =
  (sysid' ← stoi sys;
   compid' ← stoi comp;
   ros_log DEBUG "URL: found system/component id = [%u, %u]";;
   mret (to_uint8 sysid', to_uint8 compid')).
Proof.
  intros Hfirst Hdrop Hcomma. unfold url_parse_query.
  destruct (std_search_first "ids=" query i) as [Hsearch Hlt];
    [done | done |].
  destruct (decide (query = [])) as [-> | _]; [simpl in Hlt; lia |].
  rewrite Hsearch.
  destruct (decide (i = length query)) as [-> | _]; [lia |].
  change (length (String.list_ascii_of_string "ids=")) with 4%nat.
  unfold std_find. rewrite Hdrop, find_index_app by done.
  assert (Hlen : length query = (i + 4 + (length sys + S (length comp)))%nat).
  { rewrite <- (take_drop (i + 4) query) at 1.
    rewrite length_app, Hdrop, length_app, length_take. simpl.
    assert (length (drop (i + 4) query) = (length sys + S (length comp))%nat)
      as Hd by (by rewrite Hdrop, length_app).
    rewrite length_drop in Hd. lia. }
  destruct (decide ((i + 4 + length sys)%nat = length query)) as [Heq | _];
    [lia |].
  assert (assign query (i + 4) (i + 4 + length sys) = sys) as ->.
  { unfold assign. rewrite Hdrop.
    replace (i + 4 + length sys - (i + 4))%nat with (length sys) by lia.
    by rewrite take_app_length. }
  assert (assign query (i + 4 + length sys + 1) (length query) = comp) as ->.
  { rewrite assign_to_end.
    replace (i + 4 + length sys + 1)%nat
      with ((i + 4) + (length sys + 1))%nat by lia.
    rewrite <- drop_drop, Hdrop.
    replace (sys ++ ","%char :: comp) with ((sys ++ [","%char]) ++ comp)
      by (by rewrite <- app_assoc).
    replace (length sys + 1)%nat with (length (sys ++ [","%char]))
      by (rewrite length_app; simpl; lia).
    by rewrite drop_app_length. }
  done.
Qed.

Lemma url_parse_udp_no_separator hosts query system_id component_id :
  "@"%char ∉ hosts →
  url_parse_udp hosts query system_id component_id =
  (ros_log ERROR "UDP URL should contain @!";;
   throw (DeviceError "url" "UDP separator not found")).
Proof.
  intros Hat. unfold url_parse_udp.
  rewrite std_find_0, find_index_absent by done.
  by destruct (decide (length hosts = length hosts)).
Qed.

Lemma url_parse_udp_separator bind_pair remote_pair query system_id component_id :
  "@"%char ∉ bind_pair →
  url_parse_udp (bind_pair ++ "@"%char :: remote_pair) query
    system_id component_id =
  ('(bind_host, bind_port) ← url_parse_host bind_pair "0.0.0.0" 14555;
   '(remote_host, remote_port) ← url_parse_host remote_pair [] 14550;
   '(system_id, component_id) ← url_parse_query query system_id component_id;
   mret (MAVConnUDP system_id component_id
           bind_host bind_port remote_host remote_port)).
Proof.
  intros Hat. unfold url_parse_udp.
  rewrite std_find_0, find_index_app by done.
  destruct (decide (length bind_pair
                    = length (bind_pair ++ "@"%char :: remote_pair)))
    as [Heq | _].
  { rewrite length_app in Heq. simpl in Heq. lia. }
  rewrite assign_prefix.
  replace (bind_pair ++ "@"%char :: remote_pair)
    with ((bind_pair ++ ["@"%char]) ++ remote_pair)
    by (by rewrite <- app_assoc).
  replace (length bind_pair + 1)%nat with (length (bind_pair ++ ["@"%char]))
    by (rewrite length_app; simpl; lia).
  by rewrite assign_suffix.
Qed.

(** How [open_url] cuts a URL whose protocol has no colon and whose host
    part runs up to the first slash. *)
Lemma open_url_components scheme hosts rest system_id component_id :
  ":"%char ∉ scheme → "/"%char ∉ hosts → path_or_empty rest →
  open_url (scheme ++ "://" ++ hosts ++ rest) system_id component_id =
  (ros_log DEBUG "URL: %s: proto: %s, host: %s, path: %s, query: %s";;
   open_url_select (map tolower scheme) (map tolower hosts)
     (path_of rest) (query_of rest) system_id component_id).
Proof.
  intros Hcolon Hslash Hrest. unfold open_url.
  set (url := scheme ++ "://" ++ hosts ++ rest).
  destruct (std_search_first "://" url (length scheme)) as [Hsearch Hlt];
    [done | apply (first_occurrence_after_prefix ":" "//" scheme); done |].
  rewrite Hsearch.
  destruct (decide (length scheme = length url)) as [Heq | _]; [lia |].
  change (length (String.list_ascii_of_string "://")) with 3%nat.
  assert (Hdrop : drop (length scheme + 3) url = hosts ++ rest).
  { unfold url. rewrite <- drop_drop, drop_app_length. done. }
  assert (Hrest0 : find_index rest "/"%char = O).
  { destruct Hrest as [-> | [r ->]]; [done |]. simpl.
    by destruct (decide ("/"%char = "/"%char)). }
  assert (Hpath : std_find url (length scheme + 3) "/"%char
                  = (length scheme + 3 + length hosts)%nat).
  { unfold std_find. rewrite Hdrop, find_index_app_absent by done. lia. }
  rewrite Hpath.
  assert (Hdrop' : drop (length scheme + 3 + length hosts) url = rest).
  { rewrite <- drop_drop, Hdrop. by rewrite drop_app_length. }
  assert (Hlen : length url = (length scheme + 3 + length hosts + length rest)%nat).
  { unfold url. rewrite !length_app. simpl. lia. }
  assert (assign url 0 (length scheme) = scheme) as ->
    by apply assign_prefix.
  assert (assign url (length scheme + 3) (length scheme + 3 + length hosts)
          = hosts) as ->.
  { unfold assign. rewrite Hdrop.
    replace (length scheme + 3 + length hosts - (length scheme + 3))%nat
      with (length hosts) by lia.
    by rewrite take_app_length. }
  unfold std_find. rewrite Hdrop'.
  pose proof (find_index_le rest "?"%char) as Hq.
  set (q := find_index rest "?"%char) in *.
  assert (assign url (length scheme + 3 + length hosts)
            (length scheme + 3 + length hosts + q) = path_of rest) as ->.
  { unfold assign. rewrite Hdrop'. unfold path_of. f_equal. lia. }
  match goal with
  | |- context [assign url ?qi (length url)] =>
      assert (assign url qi (length url) = query_of rest) as ->
  end; [| done].
  rewrite assign_to_end. unfold query_of. fold q.
  destruct (decide ((length scheme + 3 + length hosts + q)%nat ≠ length url))
    as [Hne | Heq].
  - replace (S (length scheme + 3 + length hosts + q))
      with ((length scheme + 3 + length hosts) + S q)%nat by lia.
    by rewrite <- drop_drop, Hdrop'.
  - apply dec_stable in Heq.
    replace (length scheme + 3 + length hosts + q)%nat
      with ((length scheme + 3 + length hosts) + q)%nat by lia.
    rewrite <- drop_drop, Hdrop'.
    rewrite !drop_ge; [done | lia | lia].
Qed.

(* ================================================================== *)
(** * Properties of the numeric conversion *)
(* ================================================================== *)

Lemma isdigit_plain c :
  isdigit c = true →
  isspace c = false ∧ c ≠ "-"%char ∧ c ≠ "+"%char ∧ 0 ≤ digit_value c ≤ 9.
Proof.
  destruct c as [[] [] [] [] [] [] [] []]; vm_compute; intros H;
    first [discriminate H | repeat split; congruence].
Qed.

Lemma read_digits_run digits junk acc :
  forallb isdigit digits = true →
  match junk with [] => True | c :: _ => isdigit c = false end →
  read_digits acc (digits ++ junk)
  = foldl (λ acc c, 10 * acc + digit_value c) acc digits.
Proof.
  intros Hdigits Hjunk. revert acc Hdigits.
  induction digits as [|d digits IH]; simpl; intros acc Hdigits.
  - destruct junk as [|c junk]; [done |]. simpl. by rewrite Hjunk.
  - apply andb_true_iff in Hdigits as [-> Hdigits]. by apply IH.
Qed.

Lemma foldl_digits_nonneg digits acc :
  forallb isdigit digits = true → 0 ≤ acc →
  0 ≤ foldl (λ acc c, 10 * acc + digit_value c) acc digits.
Proof.
  revert acc. induction digits as [|d digits IH]; simpl; intros acc Hd Hacc;
    [done |].
  apply andb_true_iff in Hd as [Hd Hdigits].
  apply IH; [done |]. apply isdigit_plain in Hd. lia.
Qed.

(** A token that is empty, or begins with something else than white
    space, a sign or a digit, has nothing to convert. *)
Lemma stoi_no_number token :
  match token with
  | [] => True
  | c :: _ => isdigit c = false ∧ isspace c = false
              ∧ c ≠ "-"%char ∧ c ≠ "+"%char
  end →
  stoi token = throw invalid_argument.
Proof.
  destruct token as [|c token]; [done |].
  intros (Hdigit & Hspace & Hminus & Hplus).
  unfold stoi. simpl. rewrite Hspace.
  destruct (decide (c = "-"%char)); [done |].
  destruct (decide (c = "+"%char)); [done |].
  by rewrite Hdigit.
Qed.

(** A token that begins with a run of digits converts to the number the
    run denotes, whatever follows the run, unless that number exceeds
    [INT_MAX]. *)
Lemma stoi_leading_digits digits junk :
  digits ≠ [] → forallb isdigit digits = true →
  match junk with [] => True | c :: _ => isdigit c = false end →
  stoi (digits ++ junk) =
  if INT_MAX <? decimal digits then throw out_of_range
  else mret (decimal digits).
Proof.
  intros Hne Hdigits Hjunk.
  destruct digits as [|d digits]; [done |].
  pose proof Hdigits as Hall. simpl in Hdigits.
  apply andb_true_iff in Hdigits as [Hd Hrest].
  destruct (isdigit_plain d Hd) as (Hspace & Hminus & Hplus & _).
  unfold stoi. simpl skip_spaces. rewrite Hspace.
  destruct (decide (d = "-"%char)); [done |].
  destruct (decide (d = "+"%char)); [done |].
  rewrite Hd.
  change (d :: digits ++ junk) with ((d :: digits) ++ junk).
  rewrite read_digits_run by done. fold (decimal (d :: digits)).
  pose proof (foldl_digits_nonneg (d :: digits) 0 Hall) as Hpos.
  fold (decimal (d :: digits)) in Hpos.
  destruct (decimal (d :: digits) <? INT_MIN) eqn:Hmin.
  - apply Z.ltb_lt in Hmin. unfold INT_MIN in Hmin. lia.
  - done.
Qed.

(* ================================================================== *)
(** * The query and the rest of a descriptor *)
(* ================================================================== *)

Lemma outcome_log {A} lvl format (m : M A) :
  outcome (ros_log lvl format;; m) = outcome m.
Proof. by destruct m. Qed.

Ltac ids_of_transport :=
  repeat match goal with
  | |- context [url_parse_host ?h ?d ?p] =>
      destruct (url_parse_host h d p) as [? [? | [? ?]]]; simpl
  end;
  first [discriminate | by intros [= <-]].

Lemma open_url_select_keeps_ids proto host path system_id component_id conn :
  outcome (open_url_select proto host path [] system_id component_id)
    = inr conn →
  conn_ids conn = (system_id, component_id).
Proof.
  unfold open_url_select.
  destruct (decide _) as [_ | _].
  { unfold url_parse_udp. destruct (decide _) as [_ | _]; [done |].
    ids_of_transport. }
  destruct (decide _) as [_ | _];
    [unfold url_parse_tcp_client; ids_of_transport |].
  destruct (decide _) as [_ | _];
    [unfold url_parse_tcp_server; ids_of_transport |].
  destruct (decide _) as [_ | _];
    [unfold url_parse_serial; ids_of_transport |].
  done.
Qed.




(* ================================================================== *)
(** * Worked descriptors *)
(* ================================================================== *)

Example open_url_bare_path system_id component_id :
  outcome (open_url "/dev/ttyUSB0" system_id component_id)
  = inr (MAVConnSerial system_id component_id "/dev/ttyUSB0" 57600).
Proof. reflexivity. Qed.

Example open_url_serial_ids :
  outcome (open_url "serial:///dev/ttyUSB0:115200?ids=1,200" 1 240)
  = inr (MAVConnSerial 1 200 "/dev/ttyUSB0" 115200).
Proof. vm_compute. reflexivity. Qed.

Example open_url_udp system_id component_id :
  outcome (open_url "udp://0.0.0.0:14555@:14550" system_id component_id)
  = inr (MAVConnUDP system_id component_id "0.0.0.0" 14555 [] 14550).
Proof. reflexivity. Qed.

Example open_url_tcp system_id component_id :
  outcome (open_url "tcp://localhost:5760" system_id component_id)
  = inr (MAVConnTCPClient system_id component_id "localhost" 5760).
Proof. reflexivity. Qed.

(** The query starts at the first [?] after the first slash that follows
    the host part; a [?] right after the host belongs to the host token. *)
Example open_url_query_needs_path :
  outcome (open_url "tcp://localhost:5760?ids=1,200" 1 240)
  = inr (MAVConnTCPClient 1 240 "localhost" 5760).
Proof. vm_compute. reflexivity. Qed.

(* ================================================================== *)
(** * The parser claims *)
(* ================================================================== *)

(** C5, the claim as stated fails: in [a:1:2] the code takes [a] as the
    host and converts [1:2], which yields port 1; splitting at the
    rightmost colon would give host [a:1] and port 2. *)
Lemma rightmost_colon_reading_fails : ¬ splits_at_rightmost_colon.
Proof.
  intros Hclaim.
  specialize (Hclaim "a:1" "2" "localhost" 5760).
  assert (Hport : ":"%char ∉ String.list_ascii_of_string "2").
  { intros Hin. vm_compute in Hin. set_solver. }
  specialize (Hclaim Hport). vm_compute in Hclaim. discriminate Hclaim.
Qed.

(** C5, as the code has it.  A host token that contains a colon is split
    at its leftmost colon: what precedes the first colon is the host (the
    default host when that part is empty), and everything after it, later
    colons included, is the port token handed to the numeric conversion. *)
Theorem url_parse_host_splits_at_first_colon l r def_host def_port :
  ":"%char ∉ l →
  url_parse_host (l ++ ":"%char :: r) def_host def_port =
  (port ← stoi r; mret (if decide (l = []) then def_host else l, port)).
Proof. apply url_parse_host_first_colon. Qed.

Lemma url_parse_host_splits_at_first_colon_witness :
  url_parse_host "a:1:2" "localhost" 5760 = mret ("a" : list ascii, 1).
Proof.
  assert (Hhost : ":"%char ∉ String.list_ascii_of_string "a").
  { intros Hin. vm_compute in Hin. set_solver. }
  exact (url_parse_host_splits_at_first_colon "a" "1:2" "localhost" 5760 Hhost).
Defined.

(** C6, the claim as stated fails: the protocol [tcp-listen] is not one
    the code knows. *)
Lemma tcp_listen_scheme_rejected :
  open_url "tcp-listen://0.0.0.0:5760" 1 240 =
  ([Log DEBUG "URL: %s: proto: %s, host: %s, path: %s, query: %s"],
   inl (DeviceError "url" "Unknown URL type")).
Proof. vm_compute. reflexivity. Qed.

(** C6, as the code has it.  The descriptor [tcp-l://0.0.0.0:5760] yields
    a TCP server bound to host 0.0.0.0 and port 5760; more generally the
    protocol token [tcp-l], in any letter case, selects the TCP server,
    which receives the lower-cased host part and the query. *)
Theorem tcp_l_selects_server :
  (∀ system_id component_id,
     open_url "tcp-l://0.0.0.0:5760" system_id component_id =
     ([Log DEBUG "URL: %s: proto: %s, host: %s, path: %s, query: %s"],
      inr (MAVConnTCPServer system_id component_id "0.0.0.0" 5760))) ∧
  (∀ scheme hosts rest system_id component_id,
     map tolower scheme = "tcp-l" → "/"%char ∉ hosts → path_or_empty rest →
     open_url (scheme ++ "://" ++ hosts ++ rest) system_id component_id =
     (ros_log DEBUG "URL: %s: proto: %s, host: %s, path: %s, query: %s";;
      url_parse_tcp_server (map tolower hosts) (query_of rest)
        system_id component_id)).
Proof.
  split; [done |].
  intros scheme hosts rest system_id component_id Hscheme Hslash Hrest.
  rewrite open_url_components; [| | done | done].
  - by rewrite Hscheme.
  - intros Hin. apply (map_tolower_present ":") in Hin; [| done].
    rewrite Hscheme in Hin. vm_compute in Hin. set_solver.
Qed.

Lemma tcp_l_selects_server_witness :
  open_url "TCP-L://Example:5761/" 1 240 =
  (ros_log DEBUG "URL: %s: proto: %s, host: %s, path: %s, query: %s";;
   url_parse_tcp_server "example:5761" [] 1 240).
Proof.
  refine (proj2 tcp_l_selects_server "TCP-L" "Example:5761" "/" 1 240 _ _ _).
  - reflexivity.
  - intros Hin. vm_compute in Hin. set_solver.
  - right. by exists [].
Defined.

(** C7. A URL with protocol [udp] whose host part has no [@] is refused
    with [DeviceError("url", ...)], as is [udp://0.0.0.0:14555]; when the
    host part has an [@], what precedes the first one is parsed as the
    bind pair and what follows it as the remote pair. *)
Theorem udp_requires_separator scheme hosts rest system_id component_id :
  map tolower scheme = "udp" → "/"%char ∉ hosts → path_or_empty rest →
  ("@"%char ∉ hosts →
   open_url (scheme ++ "://" ++ hosts ++ rest) system_id component_id =
   ([Log DEBUG "URL: %s: proto: %s, host: %s, path: %s, query: %s";
     Log ERROR "UDP URL should contain @!"],
    inl (DeviceError "url" "UDP separator not found"))) ∧
  (∀ bind_pair remote_pair,
     hosts = bind_pair ++ "@"%char :: remote_pair → "@"%char ∉ bind_pair →
     open_url (scheme ++ "://" ++ hosts ++ rest) system_id component_id =
     (ros_log DEBUG "URL: %s: proto: %s, host: %s, path: %s, query: %s";;
      '(bind_host, bind_port) ←
         url_parse_host (map tolower bind_pair) "0.0.0.0" 14555;
      '(remote_host, remote_port) ←
         url_parse_host (map tolower remote_pair) [] 14550;
      '(system_id, component_id) ←
         url_parse_query (query_of rest) system_id component_id;
      mret (MAVConnUDP system_id component_id
              bind_host bind_port remote_host remote_port))).
Proof.
  intros Hscheme Hslash Hrest.
  assert (Hcolon : ":"%char ∉ scheme).
  { intros Hin. apply (map_tolower_present ":") in Hin; [| done].
    rewrite Hscheme in Hin. vm_compute in Hin. set_solver. }
  rewrite open_url_components by done. rewrite Hscheme.
  unfold open_url_select.
  destruct (decide (String.list_ascii_of_string "udp" = "udp")); [| done].
  split.
  - intros Hat. rewrite url_parse_udp_no_separator; [done |].
    apply map_tolower_absent; [apply tolower_inv_at | done].
  - intros bind_pair remote_pair -> Hat.
    rewrite map_tolower_app. simpl map.
    rewrite url_parse_udp_separator; [done |].
    apply map_tolower_absent; [apply tolower_inv_at | done].
Qed.

Lemma udp_requires_separator_witness :
  open_url "udp://0.0.0.0:14555" 1 240 =
  ([Log DEBUG "URL: %s: proto: %s, host: %s, path: %s, query: %s";
    Log ERROR "UDP URL should contain @!"],
   inl (DeviceError "url" "UDP separator not found")).
Proof.
  refine (proj1 (udp_requires_separator "udp" "0.0.0.0:14555" [] 1 240 _ _ _) _).
  - reflexivity.
  - intros Hin. vm_compute in Hin. set_solver.
  - by left.
  - intros Hin. vm_compute in Hin. set_solver.
Defined.




(** C9, the claim as stated fails: the port token [abc] ends parsing with
    [std::invalid_argument], not with [DeviceError], and the port token
    [57x60] is accepted as port 57. *)
Lemma non_numeric_port_not_rejected :
  outcome (open_url "tcp://localhost:abc" 1 240) = inl invalid_argument ∧
  ¬ raises_DeviceError (open_url "tcp://localhost:abc" 1 240) ∧
  outcome (open_url "tcp://localhost:57x60" 1 240)
    = inr (MAVConnTCPClient 1 240 "localhost" 57) ∧
  ¬ raises_DeviceError (open_url "tcp://localhost:57x60" 1 240).
Proof.
  split; [vm_compute; reflexivity |].
  split; [intros [what Hwhat]; vm_compute in Hwhat; discriminate Hwhat |].
  split; [vm_compute; reflexivity |].
  intros [what Hwhat]. vm_compute in Hwhat. discriminate Hwhat.
Qed.

(** C9, as the code has it.  The port (or baud-rate) token, the text after
    the first colon, goes through [std::stoi] unchecked.  A token that is
    empty or begins with something else than white space, a sign or a
    digit ends parsing with [std::invalid_argument]; a token that begins
    with a run of digits is taken at the value of that run, whatever
    follows it, and ends parsing with [std::out_of_range] when that value
    exceeds [INT_MAX].  None of these is a [DeviceError]. *)
Theorem port_token_conversion host port def_host def_port :
  ":"%char ∉ host →
  (match port with
   | [] => True
   | c :: _ => isdigit c = false ∧ isspace c = false
               ∧ c ≠ "-"%char ∧ c ≠ "+"%char
   end →
   url_parse_host (host ++ ":"%char :: port) def_host def_port
   = throw invalid_argument) ∧
  (∀ digits junk,
     port = digits ++ junk →
     digits ≠ [] → forallb isdigit digits = true →
     match junk with [] => True | c :: _ => isdigit c = false end →
     url_parse_host (host ++ ":"%char :: port) def_host def_port =
     if INT_MAX <? decimal digits then throw out_of_range
     else mret (if decide (host = []) then def_host else host, decimal digits)).
Proof.
  intros Hcolon. rewrite url_parse_host_first_colon by done. split.
  - intros Hport. by rewrite stoi_no_number.
  - intros digits junk -> Hne Hdigits Hjunk.
    rewrite stoi_leading_digits by done.
    destruct (INT_MAX <? decimal digits); [done |].
    by rewrite bind_ret.
Qed.

Lemma port_token_conversion_witness :
  url_parse_host "localhost:abc" "localhost" 5760 = throw invalid_argument ∧
  url_parse_host "localhost:57x60" "localhost" 5760
    = mret ("localhost" : list ascii, 57) ∧
  url_parse_host "localhost:99999999999" "localhost" 5760
    = throw out_of_range.
Proof.
  assert (Hhost : ":"%char ∉ String.list_ascii_of_string "localhost").
  { intros Hin. vm_compute in Hin. set_solver. }
  split; [| split].
  - refine (proj1 (port_token_conversion "localhost" "abc" "localhost" 5760
                     Hhost) _).
    vm_compute. repeat split; congruence.
  - refine (proj2 (port_token_conversion "localhost" "57x60" "localhost" 5760
                     Hhost) "57" "x60" _ _ _ _); done.
  - refine (proj2 (port_token_conversion "localhost" "99999999999"
                     "localhost" 5760 Hhost) "99999999999" [] _ _ _ _); done.
Defined.

(** C10. The identity override is found by substring search: wherever
    the four characters [ids=] first occur in the query, also inside
    another key or after other arguments, the text from there to the next
    comma is converted to the system id and the text after that comma, to
    the end of the query, to the component id; when both conversions
    succeed the two values, narrowed to [uint8_t], replace the ids the
    caller supplied. *)
Theorem ids_found_by_substring_search query i sys comp sysid compid :
  first_occurrence "ids=" query i →
  drop (i + 4) query = sys ++ ","%char :: comp →
  ","%char ∉ sys →
  url_parse_query query sysid compid =
    (sysid' ← stoi sys;
     compid' ← stoi comp;
     ros_log DEBUG "URL: found system/component id = [%u, %u]";;
     mret (to_uint8 sysid', to_uint8 compid')) ∧
  (∀ peer component,
     stoi sys = mret peer → stoi comp = mret component →
     outcome (url_parse_query query sysid compid)
     = inr (peer mod 256, component mod 256)).
Proof.
  intros Hfirst Hdrop Hcomma.
  rewrite (url_parse_query_ids query i sys comp) by done.
  split; [done |].
  intros peer component -> ->. by rewrite !bind_ret.
Qed.

Lemma ids_found_by_substring_search_witness :
  outcome (url_parse_query "kids=1,2" 7 8) = inr (1, 2) ∧
  outcome (url_parse_query "foo=bar&ids=1,2" 7 8) = inr (1, 2).
Proof.
  split.
  - refine (proj2 (ids_found_by_substring_search "kids=1,2" 1 "1" "2" 7 8
                     _ _ _) 1 2 _ _).
    + apply (std_search_is_first "ids=" "kids=1,2"). vm_compute. lia.
    + reflexivity.
    + intros Hin. vm_compute in Hin. set_solver.
    + reflexivity.
    + reflexivity.
  - refine (proj2 (ids_found_by_substring_search "foo=bar&ids=1,2" 8 "1" "2"
                     7 8 _ _ _) 1 2 _ _).
    + apply (std_search_is_first "ids=" "foo=bar&ids=1,2"). vm_compute. lia.
    + reflexivity.
    + intros Hin. vm_compute in Hin. set_solver.
    + reflexivity.
    + reflexivity.
Defined.

(* ================================================================== *)
(** * Further properties of the channel registry *)
(* ================================================================== *)

Section ChannelRegistryFurther.

Variable MAX : Z.

Lemma size_within_pool (s : gset Z) :
  0 ≤ MAX → (∀ c, c ∈ s → 0 ≤ c < MAX) → Z.of_nat (size s) ≤ MAX.
Proof.
  intros HMAX Hrange.
  assert (Hsub : s ⊆ list_to_set (seqZ 0 MAX)).
  { intros c Hc. rewrite elem_of_list_to_set, elem_of_seqZ.
    specialize (Hrange c Hc). lia. }
  apply subseteq_size in Hsub.
  rewrite size_list_to_set, length_seqZ in Hsub by apply NoDup_seqZ. lia.
Qed.

Lemma full_pool_size (s : gset Z) :
  0 ≤ MAX → (∀ c, 0 ≤ c < MAX → c ∈ s) → MAX ≤ Z.of_nat (size s).
Proof.
  intros HMAX Hfull.
  assert (Hsub : list_to_set (seqZ 0 MAX) ⊆ s).
  { intros c Hc. rewrite elem_of_list_to_set, elem_of_seqZ in Hc.
    apply Hfull. lia. }
  apply subseteq_size in Hsub.
  rewrite size_list_to_set, length_seqZ in Hsub by apply NoDup_seqZ. lia.
Qed.

Lemma pool_of_full_size (s : gset Z) :
  0 ≤ MAX → (∀ c, c ∈ s → 0 ≤ c < MAX) → Z.of_nat (size s) = MAX →
  ∀ c, 0 ≤ c < MAX → c ∈ s.
Proof.
  intros HMAX Hrange Hsize c Hc.
  assert (Hsub : s ⊆ list_to_set (seqZ 0 MAX)).
  { intros x Hx. rewrite elem_of_list_to_set, elem_of_seqZ.
    specialize (Hrange x Hx). lia. }
  assert (Heq : s = list_to_set (seqZ 0 MAX)).
  { apply set_subseteq_size_eq; [done |].
    rewrite size_list_to_set, length_seqZ by apply NoDup_seqZ. lia. }
  rewrite Heq, elem_of_list_to_set, elem_of_seqZ. lia.
Qed.

Lemma size_of_live (s : gset Z) conns :
  NoDup (channel <$> conns) → (∀ c, c ∈ s ↔ c ∈ channel <$> conns) →
  size s = length conns.
Proof.
  intros Hnd Hlive.
  assert (s = list_to_set (channel <$> conns)) as ->.
  { apply set_eq. intros c. by rewrite elem_of_list_to_set. }
  by rewrite size_list_to_set, length_fmap.
Qed.

(** X1. After any sequence of constructions and releases the allocated
    set has at most [MAX] elements, one for each live connection. *)
Theorem allocated_never_exceeds_MAX ops st :
  0 ≤ MAX →
  registry_run MAX ops registry_init = Some st →
  Z.of_nat (size (allocated st)) ≤ MAX ∧
  size (allocated st) = length (live st).
Proof.
  intros HMAX Hrun.
  destruct (registry_run_inv MAX ops _ _ (registry_init_inv MAX) Hrun)
    as (Hrange & Hnd & Hlive).
  split; [by apply size_within_pool | by apply size_of_live].
Qed.

(** X2. After any sequence of constructions and releases, with a [MAX]
    that fits an [int], [channes_available] is [MAX] less the number of
    live connections, and lies between 0 and [MAX]. *)
Theorem channes_available_counts_free ops st :
  0 ≤ MAX ≤ INT_MAX →
  registry_run MAX ops registry_init = Some st →
  channes_available MAX (allocated st) = MAX - Z.of_nat (length (live st)) ∧
  0 ≤ channes_available MAX (allocated st) ≤ MAX.
Proof.
  intros HMAX Hrun.
  destruct (registry_run_inv MAX ops _ _ (registry_init_inv MAX) Hrun)
    as (Hrange & Hnd & Hlive).
  pose proof (size_within_pool (allocated st) (proj1 HMAX) Hrange) as Hsize.
  rewrite channes_available_count by lia.
  rewrite (size_of_live (allocated st) (live st)) in * by done. lia.
Qed.

(** X3. After any sequence of constructions and releases,
    [channes_available] is 0 exactly when the next [new_channel] fails. *)
Theorem no_channel_available_iff_allocation_fails ops st :
  0 ≤ MAX ≤ INT_MAX →
  registry_run MAX ops registry_init = Some st →
  channes_available MAX (allocated st) = 0 ↔
  (new_channel MAX (allocated st)).1 = -1.
Proof.
  intros HMAX Hrun.
  destruct (registry_run_inv MAX ops _ _ (registry_init_inv MAX) Hrun)
    as (Hrange & Hnd & Hlive).
  pose proof (size_within_pool (allocated st) (proj1 HMAX) Hrange) as Hsize.
  rewrite channes_available_count by lia.
  destruct (new_channel_spec MAX (allocated st))
    as [[-> Hall] | (r & -> & Hr & Hfree & _)]; simpl.
  - pose proof (full_pool_size (allocated st) (proj1 HMAX) Hall). lia.
  - split; [| lia]. intros Hzero. destruct Hfree.
    apply pool_of_full_size; [lia | done | lia | done].
Qed.

(** X4. Releasing the channel that [new_channel] has just handed out
    restores the allocated set. *)
Theorem allocate_then_release_restores (s s' : gset Z) chan :
  new_channel MAX s = (chan, s') → 0 ≤ chan →
  delete_channel chan s' = Some s.
Proof.
  intros Hnew Hchan.
  destruct (new_channel_spec MAX s) as [[Heq _] | (r & Heq & _ & Hfree & _)];
    rewrite Heq in Hnew; injection Hnew as <- <-; [lia |].
  apply delete_channel_Some. split; set_solver.
Qed.

(** X5. When every id below an allocated channel is allocated too,
    releasing that channel and allocating again hands the same channel
    back and restores the allocated set. *)
Theorem release_then_allocate_returns_same (s : gset Z) chan :
  chan ∈ s → 0 ≤ chan < MAX → (∀ c, 0 ≤ c < chan → c ∈ s) →
  ∃ s1, delete_channel chan s = Some s1 ∧ new_channel MAX s1 = (chan, s).
Proof.
  intros Hin Hchan Hlow. exists (s ∖ {[chan]}).
  split; [by apply delete_channel_Some |].
  destruct (new_channel_spec MAX (s ∖ {[chan]}))
    as [[_ Hall] | (r & -> & Hr & Hfree & Hbelow)].
  - specialize (Hall chan Hchan). set_solver.
  - assert (r = chan) as ->.
    { destruct (decide (r = chan)) as [? | Hne]; [done |].
      destruct (decide (r < chan)).
      - destruct Hfree. specialize (Hlow r). set_solver by lia.
      - specialize (Hbelow chan). set_solver by lia. }
    f_equal. apply set_eq. intros c.
    rewrite elem_of_union, elem_of_singleton, elem_of_difference,
      elem_of_singleton.
    destruct (decide (c = chan)) as [-> | ?]; naive_solver.
Qed.

(** X6. [new_channel] fails exactly when every id of [0, MAX) is in the
    set; otherwise it returns an id of [0, MAX) that was free, and the
    set grows by that one element. *)
Theorem new_channel_fails_iff_full (s : gset Z) :
  ((new_channel MAX s).1 = -1 ↔ ∀ c, 0 ≤ c < MAX → c ∈ s) ∧
  ((new_channel MAX s).1 ≠ -1 →
   0 ≤ (new_channel MAX s).1 < MAX ∧
   ((new_channel MAX s).1 ∉ s) ∧
   s ⊆ (new_channel MAX s).2 ∧
   size (new_channel MAX s).2 = S (size s)).
Proof.
  destruct (new_channel_spec MAX s)
    as [[-> Hall] | (r & -> & Hr & Hfree & _)]; simpl.
  - split; [done | lia].
  - split.
    + split; [lia |]. intros Hall. destruct Hfree. by apply Hall.
    + intros _. split; [done |]. split; [done |]. split; [set_solver |].
      rewrite size_union by set_solver. by rewrite size_singleton.
Qed.

(** X7. From the empty registry, successive constructions take the ids
    0, 1, 2, ... in order as long as ids are left, and with a pool of
    [MAX] ids the construction after the [MAX]-th fails. *)
Theorem pool_fills_in_order system_id component_id :
  0 ≤ MAX →
  (∀ n : nat, Z.of_nat n ≤ MAX →
     registry_run MAX (replicate n (Allocate system_id component_id))
       registry_init
     = Some (Registry (list_to_set (seqZ 0 (Z.of_nat n)))
               (Connection system_id component_id
                  <$> reverse (seqZ 0 (Z.of_nat n))))) ∧
  registry_run MAX
    (replicate (S (Z.to_nat MAX)) (Allocate system_id component_id))
    registry_init
  = None.
Proof.
  intros HMAX.
  assert (Hfill : ∀ n : nat, Z.of_nat n ≤ MAX →
     registry_run MAX (replicate n (Allocate system_id component_id))
       registry_init
     = Some (Registry (list_to_set (seqZ 0 (Z.of_nat n)))
               (Connection system_id component_id
                  <$> reverse (seqZ 0 (Z.of_nat n))))).
  { induction n as [|n IH]; intros Hn; [done |].
    rewrite replicate_S_end, registry_run_app, IH by lia. simpl.
    unfold MAVConnInterface_ctor. rewrite new_channel_next by lia.
    destruct (0 <=? Z.of_nat n) eqn:Hnonneg; [| lia].
    do 2 f_equal.
    replace (Z.of_nat (S n)) with (Z.of_nat n + 1) by lia.
    rewrite seqZ_app by lia. rewrite reverse_app. simpl.
    by rewrite Z.add_0_l. }
  split; [exact Hfill |].
  rewrite replicate_S_end, registry_run_app, Hfill by lia. simpl.
  unfold MAVConnInterface_ctor.
  destruct (new_channel_spec MAX (list_to_set (seqZ 0 (Z.of_nat (Z.to_nat MAX)))))
    as [[-> _] | (r & _ & Hr & Hfree & _)]; [done |].
  destruct Hfree. rewrite elem_of_list_to_set, elem_of_seqZ. lia.
Qed.

End ChannelRegistryFurther.

Lemma allocated_never_exceeds_MAX_witness :
  Z.of_nat (size ({[0; 1]} : gset Z)) ≤ 16 ∧
  size ({[0; 1]} : gset Z)
  = length [Connection 1 240 0; Connection 1 240 1].
Proof.
  refine (allocated_never_exceeds_MAX 16
    [Allocate 1 240; Allocate 1 240; Release 0; Allocate 1 240]
    (Registry {[0; 1]} [Connection 1 240 0; Connection 1 240 1]) _ _).
  - lia.
  - vm_compute. reflexivity.
Defined.

Lemma channes_available_counts_free_witness :
  channes_available 16 {[1]} = 16 - Z.of_nat (length [Connection 1 240 1]) ∧
  0 ≤ channes_available 16 {[1]} ≤ 16.
Proof.
  refine (channes_available_counts_free 16
    [Allocate 1 240; Allocate 1 240; Release 0]
    (Registry {[1]} [Connection 1 240 1]) _ _).
  - vm_compute. split; discriminate.
  - vm_compute. reflexivity.
Defined.

Lemma no_channel_available_iff_allocation_fails_witness :
  channes_available 2 {[0; 1]} = 0 ↔ (new_channel 2 {[0; 1]}).1 = -1.
Proof.
  refine (no_channel_available_iff_allocation_fails 2
    [Allocate 1 240; Allocate 1 240]
    (Registry {[0; 1]} [Connection 1 240 1; Connection 1 240 0]) _ _).
  - vm_compute. split; discriminate.
  - vm_compute. reflexivity.
Defined.

Lemma allocate_then_release_restores_witness :
  delete_channel 2 {[0; 1; 2; 3]} = Some {[0; 1; 3]}.
Proof.
  refine (allocate_then_release_restores 16 {[0; 1; 3]} {[0; 1; 2; 3]} 2 _ _).
  - vm_compute. reflexivity.
  - lia.
Defined.

Lemma release_then_allocate_returns_same_witness :
  ∃ s1, delete_channel 1 {[0; 1; 3]} = Some s1 ∧
        new_channel 16 s1 = (1, {[0; 1; 3]}).
Proof.
  refine (release_then_allocate_returns_same 16 {[0; 1; 3]} 1 _ _ _).
  - set_solver.
  - lia.
  - intros c Hc. assert (c = 0) as -> by lia. set_solver.
Defined.

Lemma pool_fills_in_order_witness :
  registry_run 2 [Allocate 1 240; Allocate 1 240; Allocate 1 240]
    registry_init
  = None.
Proof.
  refine (proj2 (pool_fills_in_order 2 1 240 _)). lia.
Defined.

(* ================================================================== *)
(** * The default event loop thread is started once *)
(* ================================================================== *)

Lemma start_default_loop_started st :
  joinable (default_loop_thd st) = true →
  ∀ n, Nat.iter n start_default_loop st = st.
Proof.
  intros Hj. induction n as [|n IH]; simpl; [done |].
  rewrite IH. unfold start_default_loop. by rewrite Hj.
Qed.

(** X9. However often [start_default_loop] is called, one thread is
    started: the first call starts the event loop thread, named
    [ev_default_loop], and every later call changes nothing. *)
Theorem start_default_loop_starts_once (n : nat) :
  Nat.iter (S n) start_default_loop loop_init
  = LoopState (Some (BoostThread "loop_spinner" "ev_default_loop"))
      [BoostThread "loop_spinner" "ev_default_loop"].
Proof.
  rewrite Nat.iter_succ_r.
  by rewrite start_default_loop_started.
Qed.

(* ================================================================== *)
(** * Further properties of the URL parser *)
(* ================================================================== *)

Lemma std_search_absent needle s :
  (∀ i, ¬ occurs_at needle s i) → std_search s needle = length s.
Proof.
  induction s as [|x s IH]; intros Hnone; [done |]. simpl.
  destruct (starts_with needle (x :: s)) eqn:Hstart.
  - destruct (Hnone O). apply starts_with_spec in Hstart as [rest ->].
    by exists rest.
  - f_equal. apply IH. intros i [rest Hocc]. apply (Hnone (S i)).
    by exists rest.
Qed.

Lemma std_search_nowhere needle s :
  needle ≠ [] → std_search s needle = length s →
  ∀ i, ¬ occurs_at needle s i.
Proof.
  intros Hneedle. induction s as [|x s IH]; intros Hsearch i [rest Hocc].
  - rewrite drop_nil in Hocc. by destruct needle.
  - simpl in Hsearch.
    destruct (starts_with needle (x :: s)) eqn:Hstart; [discriminate |].
    destruct i as [|i].
    + rewrite drop_0 in Hocc.
      assert (starts_with needle (x :: s) = true) as Hyes
        by (apply starts_with_spec; eauto).
      congruence.
    + apply (IH ltac:(lia) i). by exists rest.
Qed.

(** [std::stoi] throws one of its two exceptions or returns an [int]. *)
Lemma stoi_cases str :
  stoi str = throw invalid_argument ∨ stoi str = throw out_of_range ∨
  ∃ v, stoi str = mret v ∧ INT_MIN ≤ v ≤ INT_MAX.
Proof.
  unfold stoi.
  destruct (match skip_spaces str with
            | [] => (false, skip_spaces str)
            | c :: s' =>
                if decide (c = "-"%char) then (true, s')
                else if decide (c = "+"%char) then (false, s')
                else (false, skip_spaces str)
            end) as [negative s].
  destruct s as [|c s]; [by left |].
  destruct (isdigit c); [| by left].
  generalize (if negative then - read_digits 0 (c :: s)
              else read_digits 0 (c :: s)).
  intros v.
  destruct (v <? INT_MIN) eqn:Hmin; cbn [orb]; [right; by left |].
  destruct (INT_MAX <? v) eqn:Hmax; [right; by left |].
  right; right. exists v. split; [done | lia].
Qed.

Lemma url_parse_query_empty sysid compid :
  url_parse_query [] sysid compid = mret (sysid, compid).
Proof. done. Qed.

(** Every host token has no colon, or splits at its first one. *)
Lemma host_token_cases (host : list ascii) :
  ":"%char ∉ host ∨ ∃ l r, host = l ++ ":"%char :: r ∧ ":"%char ∉ l.
Proof.
  destruct (decide (":"%char ∈ host)) as [Hin | Hout]; [| by left].
  right. by apply list_elem_of_split_l.
Qed.

(** X10. A host token without colon is itself the host, and an empty
    token stands for the default host; in both cases the default port
    applies and nothing is converted. *)
Theorem host_token_without_colon host def_host def_port :
  ":"%char ∉ host →
  url_parse_host host def_host def_port =
  mret (if decide (host = []) then def_host else host, def_port).
Proof. apply url_parse_host_no_colon. Qed.

Lemma host_token_without_colon_witness :
  url_parse_host "example" "localhost" 5760
  = mret ("example" : list ascii, 5760).
Proof.
  refine (host_token_without_colon "example" "localhost" 5760 _).
  intros Hin. vm_compute in Hin. set_solver.
Defined.

(** X11. [url_parse_host] writes nothing to the console.  When it
    returns, the host has no colon unless the default host has one, is
    empty only if the default host is, and the port is the default port
    or fits an [int]; when it throws, the exception is one of
    [std::stoi]'s. *)
Theorem url_parse_host_result_shape host def_host def_port :
  (url_parse_host host def_host def_port).1 = [] ∧
  match outcome (url_parse_host host def_host def_port) with
  | inr (host_out, port_out) =>
      (":"%char ∉ def_host → ":"%char ∉ host_out) ∧
      (host_out = [] → def_host = []) ∧
      (port_out = def_port ∨ INT_MIN ≤ port_out ≤ INT_MAX)
  | inl e => e = invalid_argument ∨ e = out_of_range
  end.
Proof.
  destruct (host_token_cases host) as [Hnone | (l & r & -> & Hl)].
  - rewrite url_parse_host_no_colon by done. split; [done |]. simpl.
    destruct (decide (host = [])) as [-> | Hne]; split; try done;
      split; try done; by left.
  - rewrite url_parse_host_first_colon by done.
    destruct (stoi_cases r) as [-> | [-> | (v & -> & Hv)]].
    + split; [done |]. by left.
    + split; [done |]. by right.
    + rewrite bind_ret. split; [done |]. simpl.
      destruct (decide (l = [])) as [-> | Hne]; split; try done;
        split; try done; by right.
Qed.

(** X12. A query in which [ids=] occurs nowhere leaves the ids as the
    caller passed them: silently when the query is empty, with a warning
    otherwise. *)
Theorem query_without_ids_key query sysid compid :
  (∀ i, ¬ occurs_at "ids=" query i) →
  url_parse_query query sysid compid =
  (if decide (query = []) then []
   else [Log WARN "URL: unknown query arguments"],
   inr (sysid, compid)).
Proof.
  intros Hnone. unfold url_parse_query.
  destruct (decide (query = [])) as [-> | Hne]; [done |].
  rewrite std_search_absent by done.
  by destruct (decide (length query = length query)).
Qed.

Lemma query_without_ids_key_witness :
  url_parse_query "foo=bar" 1 240
  = ([Log WARN "URL: unknown query arguments"], inr (1, 240)).
Proof.
  refine (query_without_ids_key "foo=bar" 1 240 _).
  apply std_search_nowhere; [done | reflexivity].
Defined.

(** X13. The ids that [url_parse_query] returns are bytes whenever the
    ids passed in are. *)
Theorem query_ids_stay_bytes query sysid compid sysid' compid' :
  0 ≤ sysid < 256 → 0 ≤ compid < 256 →
  outcome (url_parse_query query sysid compid) = inr (sysid', compid') →
  0 ≤ sysid' < 256 ∧ 0 ≤ compid' < 256.
Proof.
  intros Hsys Hcomp. unfold url_parse_query.
  destruct (decide (query = [])); [by intros [= <- <-] |].
  destruct (decide (_ = length query)); [by intros [= <- <-] |].
  destruct (decide (_ = length query)); [by intros [= <- <-] |].
  match goal with
  | |- context [stoi ?a ≫= _] => destruct (stoi_cases a) as [-> | [-> | (v & -> & _)]]
  end; [done | done |].
  rewrite bind_ret.
  match goal with
  | |- context [stoi ?a ≫= _] => destruct (stoi_cases a) as [-> | [-> | (w & -> & _)]]
  end; [done | done |].
  rewrite bind_ret. intros [= <- <-]. unfold to_uint8.
  split; apply Z.mod_pos_bound; lia.
Qed.

Lemma query_ids_stay_bytes_witness :
  outcome (url_parse_query "ids=300,200" 1 240) = inr (44, 200) ∧
  (0 ≤ 44 < 256 ∧ 0 ≤ 200 < 256).
Proof.
  assert (Hrun : outcome (url_parse_query "ids=300,200" 1 240)
                 = inr (44, 200)) by (vm_compute; reflexivity).
  split; [exact Hrun |].
  refine (query_ids_stay_bytes "ids=300,200" 1 240 44 200 _ _ Hrun); lia.
Defined.

(** ** When the query parser throws *)

Lemma std_search_le needle s : (std_search s needle ≤ length s)%nat.
Proof.
  induction s as [|x s IH]; simpl; [lia |].
  destruct (starts_with needle (x :: s)); lia.
Qed.

(** X14. [url_parse_query] throws only in the conversion of an id: when
    it throws, the exception is [std::invalid_argument] or
    [std::out_of_range], and the query has an [ids=] with a comma after
    its first occurrence. *)
Theorem url_parse_query_exceptions query sysid compid e :
  outcome (url_parse_query query sysid compid) = inl e →
  (e = invalid_argument ∨ e = out_of_range) ∧
  ∃ i, first_occurrence "ids=" query i ∧ ","%char ∈ drop (i + 4) query.
Proof.
  unfold url_parse_query.
  destruct (decide (query = [])) as [_ | _]; [done |].
  destruct (decide (std_search query "ids=" = length query))
    as [_ | Hfound]; [done |].
  change (length (String.list_ascii_of_string "ids=")) with 4%nat.
  destruct (decide (_ = length query)) as [_ | Hcomma]; [done |].
  intros Hthrow. split.
  - revert Hthrow.
    match goal with
    | |- context [stoi ?a ≫= _] =>
        destruct (stoi_cases a) as [-> | [-> | (v & -> & _)]]
    end; [intros [= <-]; by left | intros [= <-]; by right |].
    rewrite bind_ret.
    match goal with
    | |- context [stoi ?a ≫= _] =>
        destruct (stoi_cases a) as [-> | [-> | (w & -> & _)]]
    end; [intros [= <-]; by left | intros [= <-]; by right |].
    by rewrite bind_ret.
  - exists (std_search query "ids=").
    pose proof (std_search_le "ids=" query) as Hle.
    assert (Hfirst : first_occurrence "ids=" query (std_search query "ids="))
      by (apply std_search_is_first; lia).
    split; [done |].
    destruct (decide (","%char ∈ drop (std_search query "ids=" + 4) query))
      as [? | Habsent]; [done |].
    destruct Hcomma. unfold std_find.
    rewrite find_index_absent, length_drop by done.
    destruct Hfirst as [[rest Hocc] _].
    assert (length (drop (std_search query "ids=") query)
            = (4 + length rest)%nat) as Hd
      by (by rewrite Hocc, length_app).
    rewrite length_drop in Hd. lia.
Qed.

Lemma url_parse_query_exceptions_witness :
  outcome (url_parse_query "ids=x,1" 1 240) = inl invalid_argument ∧
  (invalid_argument = invalid_argument ∨ invalid_argument = out_of_range) ∧
  ∃ i, first_occurrence "ids=" "ids=x,1" i
       ∧ ","%char ∈ drop (i + 4) (String.list_ascii_of_string "ids=x,1").
Proof.
  assert (Hrun : outcome (url_parse_query "ids=x,1" 1 240)
                 = inl invalid_argument) by (vm_compute; reflexivity).
  split; [exact Hrun |].
  exact (url_parse_query_exceptions "ids=x,1" 1 240 invalid_argument Hrun).
Defined.

(** ** Descriptors without protocol *)

(** X15. A descriptor in which [://] occurs nowhere is a serial device
    path: the whole text goes through the [path:baud] splitting with the
    defaults [/dev/ttyACM0] and 57600, no query is looked for, and the
    ids are those the caller passed. *)
Theorem open_url_file_path url system_id component_id :
  (∀ i, ¬ occurs_at "://" url i) →
  open_url url system_id component_id =
  (ros_log DEBUG "URL: %s: looks like file path";;
   '(file_path, baudrate) ← url_parse_host url "/dev/ttyACM0" 57600;
   mret (MAVConnSerial system_id component_id file_path baudrate)).
Proof.
  intros Hnone. unfold open_url.
  rewrite std_search_absent by done.
  destruct (decide (length url = length url)); [| done].
  reflexivity.
Qed.

Lemma open_url_file_path_witness :
  open_url "/dev/ttyUSB0:115200?ids=1,2" 1 240 =
  (ros_log DEBUG "URL: %s: looks like file path";;
   '(file_path, baudrate) ←
      url_parse_host "/dev/ttyUSB0:115200?ids=1,2" "/dev/ttyACM0" 57600;
   mret (MAVConnSerial 1 240 file_path baudrate)).
Proof.
  refine (open_url_file_path "/dev/ttyUSB0:115200?ids=1,2" 1 240 _).
  apply std_search_nowhere; [done | reflexivity].
Defined.

(** ** Protocol selection *)

Lemma tolower_inv_colon c : tolower c = ":"%char → c = ":"%char.
Proof.
  destruct c as [[] [] [] [] [] [] [] []]; vm_compute; intros H;
    first [reflexivity | discriminate H].
Qed.

Lemma tolower_inv_slash c : tolower c = "/"%char → c = "/"%char.
Proof.
  destruct c as [[] [] [] [] [] [] [] []]; vm_compute; intros H;
    first [reflexivity | discriminate H].
Qed.

Lemma tolower_idem c : tolower (tolower c) = tolower c.
Proof. by destruct c as [[] [] [] [] [] [] [] []]. Qed.

Lemma map_tolower_idem s : map tolower (map tolower s) = map tolower s.
Proof.
  induction s as [|c s IH]; simpl; [done |]. by rewrite tolower_idem, IH.
Qed.

(** X16. A URL whose protocol, lower-cased, is none of [udp], [tcp],
    [tcp-l] and [serial] is refused as unknown URL type, before anything
    of its host, port or query is looked at. *)
Theorem open_url_unknown_scheme scheme hosts rest system_id component_id :
  ":"%char ∉ scheme → "/"%char ∉ hosts → path_or_empty rest →
  map tolower scheme ∉ known_protocols →
  open_url (scheme ++ "://" ++ hosts ++ rest) system_id component_id =
  ([Log DEBUG "URL: %s: proto: %s, host: %s, path: %s, query: %s"],
   inl (DeviceError "url" "Unknown URL type")).
Proof.
  intros Hcolon Hslash Hrest Hunknown.
  rewrite open_url_components by done. unfold open_url_select.
  unfold known_protocols in Hunknown.
  rewrite !not_elem_of_cons in Hunknown.
  destruct Hunknown as (Hudp & Htcp & Htcpl & Hserial & _).
  repeat (destruct (decide _) as [? | _]; [done |]).
  done.
Qed.

Lemma open_url_unknown_scheme_witness :
  open_url "http://example.org:x/?ids=1" 1 240 =
  ([Log DEBUG "URL: %s: proto: %s, host: %s, path: %s, query: %s"],
   inl (DeviceError "url" "Unknown URL type")).
Proof.
  refine (open_url_unknown_scheme "http" "example.org:x" "/?ids=1" 1 240
            _ _ _ _).
  - intros Hin. vm_compute in Hin. set_solver.
  - intros Hin. vm_compute in Hin. set_solver.
  - right. by eexists.
  - intros Hin. vm_compute in Hin. set_solver.
Defined.

(** X17. Protocol and host part are case-insensitive: a URL and the same
    URL with both lower-cased end alike, with the same transport request
    or the same exception.  (Path and query keep their case.) *)
Theorem open_url_case_insensitive scheme hosts rest system_id component_id :
  ":"%char ∉ scheme → "/"%char ∉ hosts → path_or_empty rest →
  outcome (open_url (scheme ++ "://" ++ hosts ++ rest)
             system_id component_id) =
  outcome (open_url (map tolower scheme ++ "://" ++ map tolower hosts ++ rest)
             system_id component_id).
Proof.
  intros Hcolon Hslash Hrest.
  rewrite !open_url_components; try done.
  - by rewrite !map_tolower_idem.
  - apply map_tolower_absent; [apply tolower_inv_colon | done].
  - apply map_tolower_absent; [apply tolower_inv_slash | done].
Qed.

Lemma open_url_case_insensitive_witness :
  outcome (open_url "TCP://LocalHost:5760/?ids=1,2" 1 240) =
  outcome (open_url "tcp://localhost:5760/?ids=1,2" 1 240).
Proof.
  refine (open_url_case_insensitive "TCP" "LocalHost:5760" "/?ids=1,2" 1 240
            _ _ _).
  - intros Hin. vm_compute in Hin. set_solver.
  - intros Hin. vm_compute in Hin. set_solver.
  - right. by eexists.
Defined.

(** X18. With protocol [serial] the host part is not used: device and
    baud rate come from the path, from its first slash on, whatever
    stands between [://] and that slash. *)
Theorem serial_scheme_ignores_host scheme hosts rest system_id component_id :
  map tolower scheme = "serial" → "/"%char ∉ hosts → path_or_empty rest →
  open_url (scheme ++ "://" ++ hosts ++ rest) system_id component_id =
  (ros_log DEBUG "URL: %s: proto: %s, host: %s, path: %s, query: %s";;
   url_parse_serial (path_of rest) (query_of rest) system_id component_id).
Proof.
  intros Hscheme Hslash Hrest.
  rewrite open_url_components; [| | done | done].
  - by rewrite Hscheme.
  - intros Hin. apply (map_tolower_present ":") in Hin; [| done].
    rewrite Hscheme in Hin. vm_compute in Hin. set_solver.
Qed.

Lemma serial_scheme_ignores_host_witness :
  open_url "serial://ignored/dev/ttyUSB0:115200" 1 240 =
  (ros_log DEBUG "URL: %s: proto: %s, host: %s, path: %s, query: %s";;
   url_parse_serial "/dev/ttyUSB0:115200" [] 1 240).
Proof.
  refine (serial_scheme_ignores_host "serial" "ignored" "/dev/ttyUSB0:115200"
            1 240 _ _ _).
  - reflexivity.
  - intros Hin. vm_compute in Hin. set_solver.
  - right. by eexists.
Defined.

(** ** Identity and defaults *)

(** X19. A query is only looked for after the first slash that follows
    the host part: for a URL with no slash after [://], whatever it
    contains, the transport is built with the ids the caller passed. *)
Theorem open_url_without_slash_keeps_ids scheme hosts
    system_id component_id conn :
  ":"%char ∉ scheme → "/"%char ∉ hosts →
  outcome (open_url (scheme ++ "://" ++ hosts) system_id component_id)
    = inr conn →
  conn_ids conn = (system_id, component_id).
Proof.
  intros Hcolon Hslash.
  rewrite <- (app_nil_r hosts) at 1.
  rewrite open_url_components; [| done | done | by left].
  rewrite outcome_log. apply open_url_select_keeps_ids.
Qed.

Lemma open_url_without_slash_keeps_ids_witness :
  outcome (open_url "tcp://localhost:5760?ids=1,2" 7 8)
    = inr (MAVConnTCPClient 7 8 "localhost" 5760) ∧
  conn_ids (MAVConnTCPClient 7 8 "localhost" 5760) = (7, 8).
Proof.
  assert (Hrun : outcome (open_url "tcp://localhost:5760?ids=1,2" 7 8)
                 = inr (MAVConnTCPClient 7 8 "localhost" 5760))
    by (vm_compute; reflexivity).
  split; [exact Hrun |].
  refine (open_url_without_slash_keeps_ids "tcp" "localhost:5760?ids=1,2"
            7 8 _ _ _ Hrun).
  - intros Hin. vm_compute in Hin. set_solver.
  - intros Hin. vm_compute in Hin. set_solver.
Defined.

(** X20. The protocol [tcp], in any letter case, selects the TCP client,
    which receives the lower-cased host part and the query; a host part
    without colon and with nothing after it gives that host, or
    [localhost] when it is empty, and port 5760. *)
Theorem tcp_selects_client scheme hosts rest system_id component_id :
  map tolower scheme = "tcp" → "/"%char ∉ hosts → path_or_empty rest →
  open_url (scheme ++ "://" ++ hosts ++ rest) system_id component_id =
    (ros_log DEBUG "URL: %s: proto: %s, host: %s, path: %s, query: %s";;
     url_parse_tcp_client (map tolower hosts) (query_of rest)
       system_id component_id) ∧
  (":"%char ∉ hosts → rest = [] →
   open_url (scheme ++ "://" ++ hosts ++ rest) system_id component_id =
   ([Log DEBUG "URL: %s: proto: %s, host: %s, path: %s, query: %s"],
    inr (MAVConnTCPClient system_id component_id
           (if decide (hosts = []) then "localhost" else map tolower hosts)
           5760))).
Proof.
  intros Hscheme Hslash Hrest.
  assert (Hcolon : ":"%char ∉ scheme).
  { intros Hin. apply (map_tolower_present ":") in Hin; [| done].
    rewrite Hscheme in Hin. vm_compute in Hin. set_solver. }
  rewrite open_url_components by done. rewrite Hscheme.
  split; [done |].
  intros Hport ->. unfold open_url_select. simpl.
  unfold url_parse_tcp_client.
  rewrite url_parse_host_no_colon
    by (apply map_tolower_absent; [apply tolower_inv_colon | done]).
  by destruct hosts.
Qed.

Lemma tcp_selects_client_witness :
  open_url "TCP://Example" 1 240 =
  ([Log DEBUG "URL: %s: proto: %s, host: %s, path: %s, query: %s"],
   inr (MAVConnTCPClient 1 240 "example" 5760)).
Proof.
  refine (proj2 (tcp_selects_client "TCP" "Example" [] 1 240 _ _ _) _ _).
  - reflexivity.
  - intros Hin. vm_compute in Hin. set_solver.
  - by left.
  - intros Hin. vm_compute in Hin. set_solver.
  - reflexivity.
Defined.

(** X21. A UDP URL whose two pairs carry no port, with nothing after the
    host part, binds to the given host, or 0.0.0.0 when none is given, on
    port 14555, and has the given remote host, possibly empty, at port
    14550. *)
Theorem udp_pair_defaults scheme bind_pair remote_pair
    system_id component_id :
  map tolower scheme = "udp" →
  "@"%char ∉ bind_pair →
  ":"%char ∉ bind_pair → ":"%char ∉ remote_pair →
  "/"%char ∉ bind_pair → "/"%char ∉ remote_pair →
  open_url (scheme ++ "://" ++ bind_pair ++ "@"%char :: remote_pair)
    system_id component_id =
  ([Log DEBUG "URL: %s: proto: %s, host: %s, path: %s, query: %s"],
   inr (MAVConnUDP system_id component_id
          (if decide (bind_pair = []) then "0.0.0.0"
           else map tolower bind_pair)
          14555
          (map tolower remote_pair) 14550)).
Proof.
  intros Hscheme Hat Hcb Hcr Hsb Hsr.
  assert (Hcolon : ":"%char ∉ scheme).
  { intros Hin. apply (map_tolower_present ":") in Hin; [| done].
    rewrite Hscheme in Hin. vm_compute in Hin. set_solver. }
  rewrite <- (app_nil_r (bind_pair ++ "@"%char :: remote_pair)).
  rewrite open_url_components; [| done | | by left].
  2: { rewrite not_elem_of_app, not_elem_of_cons. done. }
  rewrite Hscheme. unfold open_url_select. simpl decide. cbv iota.
  rewrite map_tolower_app. simpl map.
  rewrite url_parse_udp_separator
    by (apply map_tolower_absent; [apply tolower_inv_at | done]).
  rewrite !url_parse_host_no_colon
    by (apply map_tolower_absent; [apply tolower_inv_colon | done]).
  destruct bind_pair, remote_pair; reflexivity.
Qed.

Lemma udp_pair_defaults_witness :
  open_url "udp://@Peer" 1 240 =
  ([Log DEBUG "URL: %s: proto: %s, host: %s, path: %s, query: %s"],
   inr (MAVConnUDP 1 240 "0.0.0.0" 14555 "peer" 14550)).
Proof.
  refine (udp_pair_defaults "udp" [] "Peer" 1 240 _ _ _ _ _ _).
  - reflexivity.
  - set_solver.
  - set_solver.
  - intros Hin. vm_compute in Hin. set_solver.
  - set_solver.
  - intros Hin. vm_compute in Hin. set_solver.
Defined.

(* ================================================================== *)
(** * Releasing twice *)
(* ================================================================== *)

(** X22. A channel can be released once: after a [delete_channel] that
    went well, a second [delete_channel] of the same id erases [end()],
    which is undefined, while every other allocated id can still be
    released. *)
Theorem delete_channel_twice_undefined (s s' : gset Z) chan :
  delete_channel chan s = Some s' →
  delete_channel chan s' = None ∧
  ∀ other, other ∈ s → other ≠ chan →
    delete_channel other s' = Some (s' ∖ {[other]}).
Proof.
  intros [Hin ->]%delete_channel_Some. unfold delete_channel. split.
  - destruct (decide (chan ∈ s ∖ {[chan]})) as [Hbad | _]; [| done].
    set_solver.
  - intros other Hother Hne.
    destruct (decide (other ∈ s ∖ {[chan]})) as [_ | Hbad]; [done |].
    set_solver.
Qed.

Lemma delete_channel_twice_undefined_witness :
  delete_channel 1 {[0; 3]} = None ∧
  ∀ other, other ∈ ({[0; 1; 3]} : gset Z) → other ≠ 1 →
    delete_channel other {[0; 3]} = Some ({[0; 3]} ∖ {[other]}).
Proof.
  refine (delete_channel_twice_undefined {[0; 1; 3]} {[0; 3]} 1 _).
  vm_compute. reflexivity.
Defined.
